(** * Disk space visualizer: reparse resolver, tree builder, size aggregator
      and strip treemap layout of [main.py], embedded in Rocq.

    Python integers are [Z]; Python strings are [string] (one [ascii] per
    character, so only text made of 8-bit characters is represented);
    [None] is [option]'s [None]; exceptions that the code catches are values
    of [Exn].  The world outside the program (WinAPI calls, [os.path],
    [os.scandir], and the Unicode case table behind [str.upper]) is a
    record of oracles [OS]: the program only reads from it, and a question
    asked twice has one answer.  Exhaustion of the interpreter
    ([RecursionError], [MemoryError]) is not modelled. *)

From Stdlib Require Import ZArith List String Ascii Bool Lia.
From Stdlib Require Import Sorted Permutation DecimalString.
Import ListNotations.
Local Open Scope string_scope.
Local Open Scope list_scope.
Local Open Scope Z_scope.

(** ** Python string operations used by the resolver *)

(** [str.upper] follows the Unicode case table, which is no part of the
    program and reaches outside 8-bit text (it sends one character to two,
    or to a character above 255): it is a field of [OS] below.  On ASCII
    text it is the following map, which moves the letters [a]-[z] to
    [A]-[Z]; the sample environments, whose strings are all ASCII, use it. *)
Definition ascii_upper_char (c : ascii) : ascii :=
  let n := nat_of_ascii c in
  if (Nat.leb 97 n && Nat.leb n 122)%bool then ascii_of_nat (n - 32) else c.

Fixpoint ascii_upper (s : string) : string :=
  match s with
  | EmptyString => EmptyString
  | String c s' => String (ascii_upper_char c) (ascii_upper s')
  end.

(** [s.rstrip(c)] for a one-character argument: trailing copies of [c] go. *)
Fixpoint rstrip (c : ascii) (s : string) : string :=
  match s with
  | EmptyString => EmptyString
  | String a s' =>
      match rstrip c s' with
      | EmptyString => if Ascii.eqb a c then EmptyString else String a EmptyString
      | r => String a r
      end
  end.

(** [sub in s] *)
Fixpoint str_in (sub s : string) : bool :=
  (String.prefix sub s ||
   match s with
   | EmptyString => false
   | String _ s' => str_in sub s'
   end)%bool.

(** The character class [[A-Z]] of the regular expression. *)
Definition is_A_Z (c : ascii) : bool :=
  let n := nat_of_ascii c in (Nat.leb 65 n && Nat.leb n 90)%bool.

(** [re.search(r'([A-Z]:)', s)]: the leftmost capital letter followed by a
    colon, as the two-character group 1; [None] when there is no match. *)
Fixpoint re_search_drive (s : string) : option string :=
  match s with
  | EmptyString => None
  | String c s' =>
      match s' with
      | String ":" _ =>
          if is_A_Z c then Some (String c (String ":" EmptyString))
          else re_search_drive s'
      | _ => re_search_drive s'
      end
  end.

(** ** Constants *)

Definition FILE_ATTRIBUTE_REPARSE_POINT : Z := 0x400.
Definition MAX_REPARSE_SIZE : Z := 16 * 1024.
Definition INVALID_FILE_ATTRIBUTES : Z := 0xFFFFFFFF.

(** [ctypes.sizeof(GENERIC_REPARSE_BUFFER)], lines 35-45: a [DWORD] of 4
    bytes, six [USHORT]s of 2 bytes each, and [MAX_REPARSE_SIZE // 2] wide
    characters, which take 2 bytes each on Windows (the only platform that
    has [ctypes.windll]).  Every field is aligned as it stands, so there is
    no padding. *)
Definition sizeof_GENERIC_REPARSE_BUFFER : Z :=
  4 + 6 * 2 + 2 * (MAX_REPARSE_SIZE / 2).

(** The three literals tested at line 90.  They are raw Python strings, in
    which a backslash does not escape: each written pair of backslashes is
    two characters. *)
Definition marker_unc : string := "UNC\\".
Definition marker_nt_unc : string := "\\??\\UNC\\".
Definition marker_win32_unc : string := "\\?\\UNC\\".

(** The markers as the specification writes them, with single backslashes. *)
Definition spec_marker_nt_unc : string := "\??\UNC\".
Definition spec_marker_net_unc : string := "\\UNC\".

(** ** The operating system *)

(** Exceptions the tree builder distinguishes: [PermissionError] has
    handlers of its own, every other [Exception] reaches the outermost one. *)
Inductive Exn : Type :=
| PermissionError
| OtherException.

(** One [os.DirEntry] as the builder uses it. *)
Record DirEntry : Type := mkDirEntry {
  entry_path : string;              (* entry.path *)
  entry_name : string;              (* entry.name *)
  entry_is_dir : Exn + bool;        (* entry.is_dir(follow_symlinks=False) *)
  entry_st_size : option Z          (* entry.stat(follow_symlinks=False).st_size,
                                       None when stat raises *)
}.

(** The fields of [GENERIC_REPARSE_BUFFER] that the resolver reads. *)
Record GENERIC_REPARSE_BUFFER : Type := mkReparseBuffer {
  SubstituteNameOffset : Z;
  SubstituteNameLength : Z;
  PathBuffer : string
}.

Record OS : Type := mkOS {
  (* GetFileAttributesW(path), as ctypes hands it to Python *)
  GetFileAttributesW : string -> Z;
  (* lines 65-77: CreateFileW, DeviceIoControl and CloseHandle.  None when
     the handle is invalid or DeviceIoControl reports failure, the two exits
     that return False there; otherwise the bytes DeviceIoControl left in
     buf, given as the fields a reparse structure laid over them holds *)
  read_reparse_data : string -> option GENERIC_REPARSE_BUFFER;
  (* s.upper() *)
  str_upper : string -> string;
  (* os.path.splitdrive(os.path.normpath(path))[0] *)
  os_path_drive : string -> string;
  (* os.path.basename(path) *)
  os_path_basename : string -> string;
  (* os.path.isdir(path) *)
  os_path_isdir : string -> bool;
  (* os.scandir(path): the entries yielded, then how the iteration ends:
     None when it is exhausted, Some e when opening the directory (no entry
     yielded) or fetching the next entry raises e *)
  os_scandir : string -> list DirEntry * option Exn
}.

(** ** Reparse resolver *)

Section Resolver.
Variable os : OS.

Definition _get_attrs (path : string) : option Z :=
  let a := GetFileAttributesW os path in
  if a =? INVALID_FILE_ATTRIBUTES then None else Some a.

Definition is_reparse_point (path : string) : bool :=
  match _get_attrs path with
  | None => false
  | Some a => negb (Z.land a FILE_ATTRIBUTE_REPARSE_POINT =? 0)
  end.

(** [GENERIC_REPARSE_BUFFER.from_buffer_copy(source)], line 80, for a
    source of [source_size] bytes: ctypes raises [ValueError] ([None]) when
    the source is smaller than the structure, and copies otherwise. *)
Definition from_buffer_copy (source_size : Z) (content : GENERIC_REPARSE_BUFFER)
    : option GENERIC_REPARSE_BUFFER :=
  if source_size <? sizeof_GENERIC_REPARSE_BUFFER then None else Some content.

(** Lines 81-83: the substitute name cut out of the path buffer. *)
Definition substitute_name (rdb : GENERIC_REPARSE_BUFFER) : string :=
  let sub_off := SubstituteNameOffset rdb / 2 in
  let sub_len := SubstituteNameLength rdb / 2 in
  substring (Z.to_nat sub_off) (Z.to_nat sub_len) (PathBuffer rdb).

(** Lines 88-100: the classification of the upper-cased target. *)
Definition classify_target (target_upper volume_letter : string) : bool :=
  let vol_upper := (str_upper os (rstrip ":" volume_letter) ++ ":")%string in
  if (str_in marker_unc target_upper
      || str_in marker_nt_unc target_upper
      || str_in marker_win32_unc target_upper)%bool
  then false
  else
    match re_search_drive target_upper with
    | Some g => (g =? vol_upper)%string
    | None =>
        if str_in "VOLUME{" target_upper then false else false
    end.

Definition is_reparse_point_target_same_volume
    (path volume_letter : string) : bool :=
  match _get_attrs path with
  | None => false
  | Some attrs =>
      if Z.land attrs FILE_ATTRIBUTE_REPARSE_POINT =? 0 then true
      else
        match read_reparse_data os path with
        | None => false
        | Some buf =>
            (* buf was created with MAX_REPARSE_SIZE bytes at line 71 *)
            match from_buffer_copy MAX_REPARSE_SIZE buf with
            | None => false                       (* except Exception *)
            | Some rdb =>
                let target := substitute_name rdb in
                let target_upper := str_upper os target in
                classify_target target_upper volume_letter
            end
        end
  end.
End Resolver.

(** ** Entry model *)

(** [class Node].  [children] is [None] for a node created as a file and a
    list for one created as a directory.  The [parent] back-reference is
    carried by the tree shape itself (only [full_path] reads it), and the
    transient GUI attributes [rect_coords] and [canvas_id] are left to the
    placement list of the layout. *)
#[warning="-register-all"]
Inductive Node : Type := mkNode {
  name : string;
  is_dir : bool;
  children : option (list Node);
  size : Z
}.

(** [Node.__init__(name, parent, is_dir, size)] *)
Definition new_Node (nm : string) (d : bool) (sz : Z) : Node :=
  mkNode nm d (if d then Some [] else None) sz.

(** [Node.add_child] *)
Definition add_child (self ch : Node) : Node :=
  match children self with
  | Some l => mkNode (name self) (is_dir self) (Some (l ++ [ch])) (size self)
  | None => self
  end.

(** [Node.aggregate_size]: the value returned and the tree after the in-place
    updates, or [None] when the loop raises [TypeError] on a directory whose
    [children] is [None]. *)
Fixpoint aggregate_size (self : Node) : option (Z * Node) :=
  match self with
  | mkNode nm d ch sz =>
      if negb d then Some (sz, self)
      else
        match ch with
        | None => None
        | Some l =>
            match
              (fix loop (l : list Node) (total : Z) {struct l}
                 : option (Z * list Node) :=
                 match l with
                 | [] => Some (total, [])
                 | c :: l' =>
                     match aggregate_size c with
                     | None => None
                     | Some (s, c') =>
                         match loop l' (total + s) with
                         | None => None
                         | Some (t, l'') => Some (t, c' :: l'')
                         end
                     end
                 end) l 0
            with
            | None => None
            | Some (total, l') => Some (total, mkNode nm d (Some l') total)
            end
        end
  end.

(** The loop of [aggregate_size] on its own, for statements about it. *)
Fixpoint aggregate_children (l : list Node) (total : Z)
  : option (Z * list Node) :=
  match l with
  | [] => Some (total, [])
  | c :: l' =>
      match aggregate_size c with
      | None => None
      | Some (s, c') =>
          match aggregate_children l' (total + s) with
          | None => None
          | Some (t, l'') => Some (t, c' :: l'')
          end
      end
  end.

(** *** Vocabulary of the tree properties *)

(** Children present exactly for directory nodes, at this node. *)
Definition children_iff_dir (n : Node) : Prop :=
  is_dir n = true <-> children n <> None.

Definition children_list (n : Node) : list Node :=
  match children n with
  | Some l => l
  | None => []
  end.

(** Every node of the tree, the root first. *)
Fixpoint nodes (n : Node) : list Node :=
  n :: match children n with
       | Some l => flat_map nodes l
       | None => []
       end.

(** The entries of the tree as the program walks it: a node and, below a
    directory, the entries of its children. *)
Fixpoint tree_entries (n : Node) : list Node :=
  n :: (if is_dir n
        then match children n with
             | Some l => flat_map tree_entries l
             | None => []
             end
        else []).

(** The nodes [k] levels below the root ([k = 0]: the root itself). *)
Fixpoint nodes_at_depth (k : nat) (n : Node) : list Node :=
  match k with
  | O => [n]
  | S k' =>
      match children n with
      | Some l => flat_map (nodes_at_depth k') l
      | None => []
      end
  end.

(** The node reached from the root by following child indices. *)
Fixpoint subnode (p : list nat) (n : Node) : option Node :=
  match p with
  | [] => Some n
  | i :: p' =>
      match children n with
      | Some l =>
          match nth_error l i with
          | Some c => subnode p' c
          | None => None
          end
      | None => None
      end
  end.

(** The entry reached from the root by following child indices, as the
    program walks: only a directory is entered. *)
Fixpoint entry_at (p : list nat) (n : Node) : option Node :=
  match p with
  | [] => Some n
  | i :: p' =>
      if is_dir n
      then match children n with
           | Some l =>
               match nth_error l i with
               | Some c => entry_at p' c
               | None => None
               end
           | None => None
           end
      else None
  end.

Definition sum_sizes (l : list Node) : Z :=
  fold_right (fun c acc => size c + acc) 0 l.

(** The invariant of the entry model, at every node of the tree. *)
Definition well_formed (t : Node) : Prop :=
  Forall children_iff_dir (nodes t).

(** A directory whose size is the sum of its children's sizes. *)
Definition dir_size_is_sum (d : Node) : Prop :=
  is_dir d = true ->
  exists cs, children d = Some cs /\ size d = sum_sizes cs.

(** No node of the tree lies more than [b] levels below its root. *)
Definition within (b : Z) (t : Node) : Prop :=
  forall k n, In n (nodes_at_depth k t) -> Z.of_nat k <= b.

(** The tree with the size field of every directory blanked: what is left is
    everything aggregation is not allowed to touch. *)
Fixpoint blank_dir_sizes (n : Node) : Node :=
  match n with
  | mkNode nm d ch sz =>
      mkNode nm d
        (match ch with
         | Some l => Some (map blank_dir_sizes l)
         | None => None
         end)
        (if d then 0 else sz)
  end.

(** ** Tree builder *)

(** [a or b] on strings: the empty string is falsy. *)
Definition str_or (a b : string) : string :=
  match a with
  | EmptyString => b
  | _ => a
  end.

(** How the [for entry in it] loop of [build_tree] can end. *)
Inductive LoopResult : Type :=
| LoopDone (node : Node)      (* every yielded entry was processed *)
| LoopRaised (e : Exn)        (* an exception left the loop body *)
| LoopNoFuel.                 (* the model's recursion budget ran out *)

Section Builder.
Variable os : OS.

(** The body of the loop at lines 160-181 for one entry; [build] is the
    recursive call [build_tree(entry_path, parent=node, depth=depth+1, ...)],
    answering [None] only when the recursion budget is exhausted. *)
Definition scan_entry (build : string -> Node -> option (option Node))
    (root_volume_letter : string) (entry : DirEntry) (node : Node)
  : LoopResult :=
  let entry_path := entry_path entry in
  match entry_is_dir entry with
  | inl PermissionError => LoopDone node                    (* continue *)
  | inl OtherException => LoopRaised OtherException
  | inr true =>
      if (is_reparse_point os entry_path
          && negb (is_reparse_point_target_same_volume
                     os entry_path root_volume_letter))%bool
      then LoopDone node                                    (* continue *)
      else
        match build entry_path node with
        | None => LoopNoFuel
        | Some (Some child) => LoopDone (add_child node child)
        | Some None => LoopDone node
        end
  | inr false =>
      let size := match entry_st_size entry with
                  | Some s => s
                  | None => 0
                  end in
      if size >? 0
      then LoopDone (add_child node (new_Node (entry_name entry) false size))
      else LoopDone node
  end.

(** The loop over the entries [os.scandir] yields. *)
Fixpoint scan_entries (build : string -> Node -> option (option Node))
    (root_volume_letter : string) (entries : list DirEntry) (node : Node)
  : LoopResult :=
  match entries with
  | [] => LoopDone node
  | entry :: rest =>
      match scan_entry build root_volume_letter entry node with
      | LoopDone node' => scan_entries build root_volume_letter rest node'
      | r => r
      end
  end.

(** Lines 143-149: the node a call of [build_tree] creates before it looks
    at the directory.  Only whether [parent] is [None] matters here. *)
Definition fresh_node (path : string) (parent : option Node) : Node :=
  match parent with
  | None =>
      let drive := os_path_drive os path in
      let root_name := str_or (rstrip "\" drive) path in
      new_Node root_name true 0
  | Some _ =>
      let node_name := str_or (os_path_basename os path) path in
      new_Node node_name (os_path_isdir os path) 0
  end.

(** [build_tree], with a recursion budget: [None] means the budget ran out,
    [Some r] that the call returned [r] ([r = None] is Python's [None]).
    [root_volume_letter] is a string, as it is in every call the program
    makes ([scan_worker] passes the drive letter and a colon). *)
Fixpoint build_tree_fuel (fuel : nat) (path : string) (parent : option Node)
    (depth max_depth : Z) (root_volume_letter : string)
  : option (option Node) :=
  let node := fresh_node path parent in
  if (is_reparse_point os path
      && negb (is_reparse_point_target_same_volume
                 os path root_volume_letter))%bool
  then Some None
  else if (is_dir node && (depth <? max_depth))%bool then
    match fuel with
    | O => None
    | S fuel' =>
        let '(entries, stop) := os_scandir os path in
        let build := fun entry_path node =>
          build_tree_fuel fuel' entry_path (Some node) (depth + 1)
                          max_depth root_volume_letter in
        match scan_entries build root_volume_letter entries node with
        | LoopNoFuel => None
        | LoopRaised _ => Some None            (* except Exception *)
        | LoopDone node' =>
            match stop with
            | None => Some (Some node')
            | Some PermissionError => Some None  (* line 182-183 *)
            | Some OtherException => Some None   (* line 185-186 *)
            end
        end
    end
  else Some (Some node).

(** [build_tree]: each recursive call happens under [depth < max_depth]
    and passes [depth + 1], so [max_depth - depth] levels are enough. *)
Definition build_tree (path : string) (parent : option Node)
    (depth max_depth : Z) (root_volume_letter : string) : option Node :=
  match build_tree_fuel (Z.to_nat (max_depth - depth)) path parent
                        depth max_depth root_volume_letter with
  | Some r => r
  | None => None
  end.
End Builder.

(** ** Treemap layout *)

(** *** [int(a / b)] on Python integers

    [a / b] is the binary64 number nearest to the exact quotient (ties to
    the even significand) and [int] drops its fractional part.  The
    significand has 53 bits: [2^52 <= m <= 2^53] below, for the value
    [m * 2^(-s)].  The exponent range is not modelled: Python raises
    [OverflowError] for a quotient of magnitude [2^1024], and results below
    [2^(-1022)] truncate to 0 here as they do there. *)

(** The integer nearest to [num / den], ties to even ([0 <= num], [0 < den]). *)
Definition round_half_even (num den : Z) : Z :=
  let q := num / den in
  let r := num mod den in
  if 2 * r <? den then q
  else if den <? 2 * r then q + 1
  else if Z.even q then q else q + 1.

(** [floor (log2 (a / b))] for [0 < a] and [0 < b]. *)
Definition quotient_exponent (a b : Z) : Z :=
  let e := Z.log2 a - Z.log2 b in
  if a * 2 ^ Z.max 0 (- e) <? b * 2 ^ Z.max 0 e then e - 1 else e.

(** [int(a / b)] for [0 < a] and [0 < b]. *)
Definition int_truediv_pos (a b : Z) : Z :=
  let s := 52 - quotient_exponent a b in
  if 0 <=? s
  then round_half_even (a * 2 ^ s) b / 2 ^ s
  else round_half_even a (b * 2 ^ (- s)) * 2 ^ (- s).

(** [int(a / b)] for [b <> 0]: rounding and truncation are symmetric in the
    sign. *)
Definition int_truediv (a b : Z) : Z :=
  if a =? 0 then 0
  else Z.sgn a * Z.sgn b * int_truediv_pos (Z.abs a) (Z.abs b).

(** *** Placements *)

(** One element of [self.rectangles]: [(node, x1, y1, x2, y2)]. *)
Definition Placement : Type := (Node * Z * Z * Z * Z)%type.

Definition rect_width (p : Placement) : Z :=
  let '(_, x1, _, x2, _) := p in x2 - x1.

Definition rect_height (p : Placement) : Z :=
  let '(_, _, y1, _, y2) := p in y2 - y1.

(** [sorted(l, key=lambda ch: ch.size, reverse=True)]: descending by size,
    equal sizes keep their order. *)
Fixpoint insert_desc (x : Node) (l : list Node) : list Node :=
  match l with
  | [] => [x]
  | y :: l' => if size x <? size y then y :: insert_desc x l' else x :: y :: l'
  end.

Definition sorted_desc (l : list Node) : list Node :=
  fold_right insert_desc [] l.

(** The values of [node], [current_x] and [node_width] (or [current_y] and
    [node_height]) at each iteration of the loops at lines 413-422 and
    427-436, which differ only in the axis.  [dimension] is the [width] (or
    [height]) being split; [current] and [remaining] are the loop state. *)
Fixpoint strip_split (dimension total_size : Z) (nodes : list Node)
    (current remaining : Z) : list (Node * Z * Z) :=
  match nodes with
  | [] => []
  | node :: rest =>
      match rest with
      | [] =>                                   (* i == len(nodes) - 1 *)
          [(node, current, remaining)]
      | _ =>
          let node_width :=
            Z.max 1 (int_truediv (dimension * size node) total_size) in
          let remaining := remaining - node_width in
          (node, current, node_width)
            :: strip_split dimension total_size rest
                 (if node_width >? 0 then current + node_width else current)
                 remaining
      end
  end.

(** The share computed for each child, in order. *)
Definition strip_shares (dimension : Z) (nodes : list Node) : list Z :=
  map (fun it => snd it)
      (strip_split dimension (sum_sizes nodes) nodes 0 dimension).

(** The shares that are handed on to [draw_node_recursive]: those that
    pass the test [node_width > 0]. *)
Definition issued_shares (dimension : Z) (nodes : list Node) : list Z :=
  filter (fun w => w >? 0) (strip_shares dimension nodes).

(** The strips that are handed on to [draw_node_recursive] by one split
    that starts at [start]: the child, where its strip begins and its
    share, for the shares that pass the test [node_width > 0] (or
    [node_height > 0]). *)
Definition issued_strips (dimension : Z) (nodes : list Node) (start : Z)
    : list (Node * Z * Z) :=
  filter (fun it => snd it >? 0)
         (strip_split dimension (sum_sizes nodes) nodes start dimension).

Definition sum_Z (l : list Z) : Z := fold_right Z.add 0 l.

Section Layout.
(** The function called for each strip: [self.draw_node_recursive]. *)
Variable draw : Node -> Z -> Z -> Z -> Z -> Z -> Z -> list Placement.

(** [draw_treemap]: the placements appended, in order. *)
Definition draw_treemap (nodes : list Node)
    (x y width height level max_draw_depth : Z) : list Placement :=
  match nodes with
  | [] => []
  | _ =>
      if ((width <? 4) || (height <? 4))%bool then []
      else
        let total_size := sum_sizes nodes in
        if total_size =? 0 then []
        else
          let vertical_split := width >? height in
          match nodes with
          | [node] => draw node x y width height level max_draw_depth
          | _ =>
              if vertical_split
              then
                flat_map
                  (fun '(node, current_x, node_width) =>
                     if node_width >? 0
                     then draw node current_x y node_width height
                               level max_draw_depth
                     else [])
                  (strip_split width total_size nodes x width)
              else
                flat_map
                  (fun '(node, current_y, node_height) =>
                     if node_height >? 0
                     then draw node x current_y width node_height
                               level max_draw_depth
                     else [])
                  (strip_split height total_size nodes y height)
          end
  end.
End Layout.

(** [node.children] as a condition: a list that is not empty. *)
Definition has_children (n : Node) : bool :=
  match children n with
  | Some (_ :: _) => true
  | _ => false
  end.

(** [draw_node_recursive]: the placements appended to [self.rectangles], in
    order.  The recursion goes through [draw_treemap] at [level + 1] and only
    under [level < max_draw_depth]; [fuel] bounds its depth, and a budget of
    [max_draw_depth - level] is never used up (lemma
    [draw_node_recursive_fuel]). *)
Fixpoint draw_node_recursive (fuel : nat) (node : Node)
    (x y width height level max_draw_depth : Z) : list Placement :=
  if ((width <? 2) || (height <? 2))%bool then []
  else
    (node, x, y, x + width, y + height)
      :: (if (is_dir node && has_children node
              && (level <? max_draw_depth))%bool
          then
            let positive := filter (fun ch => size ch >? 0)
                                   (children_list node) in
            let total_size := sum_sizes positive in
            if total_size =? 0 then []
            else
              let children := sorted_desc positive in
              match fuel with
              | O => []
              | S fuel' =>
                  draw_treemap (draw_node_recursive fuel') children
                    (x + 2) (y + 2) (width - 4) (height - 4)
                    (level + 1) max_draw_depth
              end
          else []).

(** [Layout(node, rect, maxDrawDepth)]: [max_draw_depth - level] nested
    calls are all the test [level < max_draw_depth] lets through. *)
Definition layout (node : Node) (x y width height level max_draw_depth : Z)
  : list Placement :=
  draw_node_recursive (Z.to_nat (max_draw_depth - level)) node
                      x y width height level max_draw_depth.

(** A stand-in for [draw_node_recursive] that only records the rectangle it
    is called with: it shows what [draw_treemap] hands on. *)
Definition record_strip (node : Node) (x y width height level
    max_draw_depth : Z) : list Placement :=
  [(node, x, y, x + width, y + height)].

(** ** Induction over trees *)

Fixpoint Node_nested_ind (P : Node -> Prop)
    (Hleaf : forall nm d sz, P (mkNode nm d None sz))
    (Hlist : forall nm d l sz, Forall P l -> P (mkNode nm d (Some l) sz))
    (n : Node) {struct n} : P n :=
  match n with
  | mkNode nm d None sz => Hleaf nm d sz
  | mkNode nm d (Some l) sz =>
      Hlist nm d l sz
        ((fix all (l : list Node) : Forall P l :=
            match l with
            | [] => Forall_nil P
            | c :: l' =>
                Forall_cons c (Node_nested_ind P Hleaf Hlist c) (all l')
            end) l)
  end.

(** ** Sample data *)

(** [os.path.join] below the root of C: and elsewhere. *)
Definition path_join (p nm : string) : string :=
  if String.eqb p "C:\" then (p ++ nm)%string else (p ++ "\" ++ nm)%string.

(** A volume on which every query succeeds and every directory holds one
    sub-directory [d] and one 3-byte file [f]: a tree deeper than any
    [max_depth]. *)
Definition os_endless : OS :=
  mkOS (fun _ => 0x10)
       (fun _ => None)
       ascii_upper
       (fun _ => "C:")
       (fun p => if String.eqb p "C:\" then "" else "d")
       (fun _ => true)
       (fun p => ([mkDirEntry (path_join p "d") "d" (inr true) None;
                   mkDirEntry (path_join p "f") "f" (inr false) (Some 3)],
                  None)).

(** A volume whose root directory cannot be listed. *)
Definition os_denied : OS :=
  mkOS (fun _ => 0x10)
       (fun _ => None)
       ascii_upper
       (fun _ => "C:")
       (fun _ => "")
       (fun _ => true)
       (fun _ => ([], Some PermissionError)).

(** A directory link whose substitute name is a UNC path: the handle opens,
    [DeviceIoControl] succeeds and leaves the name at the start of the path
    buffer, two bytes per character. *)
Definition unc_target : string := "\??\UNC\nas\share\archive:2024".

Definition unc_reparse_data : GENERIC_REPARSE_BUFFER :=
  mkReparseBuffer 0 (2 * Z.of_nat (String.length unc_target)) unc_target.

Definition os_unc_link : OS :=
  mkOS (fun _ => 0x410)
       (fun _ => Some unc_reparse_data)
       ascii_upper
       (fun _ => "E:")
       (fun _ => "link")
       (fun _ => true)
       (fun _ => ([], None)).

(** A small tree as [build_tree] leaves it: directory sizes still 0. *)
Definition sample_sub : Node :=
  mkNode "sub" true
         (Some [mkNode "b" false None 7; mkNode "c" false None 1]) 0.

Definition sample_tree : Node :=
  mkNode "C:" true
         (Some [mkNode "a" false None 5; sample_sub; mkNode "e" true (Some []) 0])
         0.

(** The children of the layout example of the specification. *)
Definition sample_strip : list Node :=
  [mkNode "x" false None 100; mkNode "y" false None 100;
   mkNode "z" false None 800].

(** Seven files of one byte each. *)
Definition seven_ones : list Node :=
  repeat (mkNode "f" false None 1) 7.

(** Two files of 5.1 TB and 0.36 TB. *)
Definition two_large : list Node :=
  [mkNode "p" false None 5105186576331; mkNode "q" false None 358177099205].

(** A directory with a single file in it. *)
Definition only_child : Node := mkNode "f" false None 9.

Definition single_dir : Node := mkNode "d" true (Some [only_child]) 9.

(** ** The scan and the presentation around the core *)

(** The bytes held by the files the program can reach in the tree. *)
Fixpoint file_total (n : Node) : Z :=
  if is_dir n
  then match children n with
       | Some l => sum_Z (map file_total l)
       | None => 0
       end
  else size n.

(** The sizes [build_tree] leaves in a node: 0 in a directory, the positive
    size found by [stat] in a file, which has no children. *)
Definition built_sizes (n : Node) : Prop :=
  if is_dir n then size n = 0 else 0 < size n /\ children n = None.

(** [os.path.isdir] agrees with [os.scandir] about the entries that
    [os.scandir] reports as directories. *)
Definition isdir_consistent (os : OS) : Prop :=
  forall p e,
    In e (fst (os_scandir os p)) -> entry_is_dir e = inr true ->
    os_path_isdir os (entry_path e) = true.

(** What [scan_worker] posts to the main thread: [scan_complete] with the
    tree (or [None]), or [scan_error] when an exception reached its handler
    (the message is left out). *)
Inductive ScanOutcome : Type :=
| scan_complete (tree_root : option Node)
| scan_error.

(** [scan_worker(drive, depth)], lines 295-311.  The scan depth is the
    constant 100; [depth] is not used. *)
Definition scan_worker (os : OS) (drive : string) (depth : Z) : ScanOutcome :=
  let root_path := (drive ++ ":\")%string in
  let root_vol := (drive ++ ":")%string in
  let tree_root := build_tree os root_path None 0 100 root_vol in
  match tree_root with
  | Some t =>
      match aggregate_size t with
      | Some (_, t') => scan_complete (Some t')
      | None => scan_error
      end
  | None => scan_complete None
  end.

(** What one call of [draw_visualization] does, lines 333-351. *)
Inductive DrawOutcome : Type :=
| NothingToDraw                          (* no tree: return *)
| DrawLater                              (* canvas not laid out: retry *)
| Drawn (rectangles : list Placement).   (* self.rectangles afterwards *)

Definition draw_visualization (tree_root : option Node)
    (canvas_width canvas_height draw_depth : Z) : DrawOutcome :=
  match tree_root with
  | None => NothingToDraw
  | Some t =>
      if ((canvas_width <=? 1) || (canvas_height <=? 1))%bool then DrawLater
      else Drawn (layout t 0 0 canvas_width canvas_height 0 draw_depth)
  end.

(** The test [x1 <= x <= x2 and y1 <= y <= y2] of [on_canvas_click]. *)
Definition contains_point (x y : Z) (p : Placement) : bool :=
  let '(_, x1, y1, x2, y2) := p in
  ((x1 <=? x) && (x <=? x2) && (y1 <=? y) && (y <=? y2))%bool.

(** [clicked_node] at line 450 of [on_canvas_click]: the node of the first
    rectangle, from the end of [self.rectangles], that contains the point. *)
Definition on_canvas_click (rectangles : list Placement) (x y : Z)
  : option Node :=
  match find (contains_point x y) (rev rectangles) with
  | Some (node, _, _, _, _) => Some node
  | None => None
  end.

(** [string.ascii_uppercase], one string per letter. *)
Definition ascii_uppercase : list string :=
  ["A"; "B"; "C"; "D"; "E"; "F"; "G"; "H"; "I"; "J"; "K"; "L"; "M";
   "N"; "O"; "P"; "Q"; "R"; "S"; "T"; "U"; "V"; "W"; "X"; "Y"; "Z"]%string.

(** The loop of [get_available_drives], lines 262-265. *)
Fixpoint drives_loop (letters : list string) (bitmask : Z) : list string :=
  match letters with
  | [] => []
  | letter :: rest =>
      (if negb (Z.land bitmask 1 =? 0) then [letter] else [])
        ++ drives_loop rest (Z.shiftr bitmask 1)
  end.

(** [get_available_drives], for the value [GetLogicalDrives()] returned. *)
Definition get_available_drives (bitmask : Z) : list string :=
  drives_loop ascii_uppercase bitmask.

(** A volume whose root holds one plain directory [j] that [os.scandir]
    reports as a directory and on which [os.path.isdir], which answers
    [False] whenever its own query fails, says no. *)
Definition os_isdir_refused : OS :=
  mkOS (fun _ => 0x10)
       (fun _ => None)
       ascii_upper
       (fun _ => "C:")
       (fun p => if String.eqb p "C:\j" then "j" else "")
       (fun p => negb (String.eqb p "C:\j"))
       (fun p => if String.eqb p "C:\"
                 then ([mkDirEntry "C:\j" "j" (inr true) None], None)
                 else ([], Some OtherException)).

(** *** [format_size]

    [float(size_bytes)] is the double nearest to the integer; it is a whole
    number, kept here as an integer.  When that nearest value, rounded to 53
    bits, reaches [2^1024] there is no such double and [float] raises
    [OverflowError].  The loop divides by 1024, which is exact on doubles
    of this size, so after [unit_index] rounds [size] is
    [float(size_bytes) / 1024 ^ unit_index].  [f"{size:.1f}"] prints the
    decimal with one fractional digit nearest to that value, ties to the
    even digit. *)

(** The integer rounded to 53 significant bits, ties to even. *)
Definition nearest_double (n : Z) : Z := int_truediv n 1.

(** [float(n)]; [None] is [OverflowError]. *)
Definition float_of_int (n : Z) : option Z :=
  let f := nearest_double n in
  if Z.abs f <? 2 ^ 1024 then Some f else None.

(** The loop at lines 476-478; [steps] is what
    [unit_index < len(units) - 1] still allows. *)
Fixpoint unit_loop (steps : nat) (size : Z) (unit_index : nat) : nat :=
  match steps with
  | O => unit_index
  | S steps' =>
      if size >=? 1024 * 1024 ^ Z.of_nat unit_index
      then unit_loop steps' size (S unit_index)
      else unit_index
  end.

Definition units : list string := ["B"; "KB"; "MB"; "GB"; "TB"]%string.

(** [unit_index] after the loop. *)
Definition size_unit_index (size_bytes : Z) : nat :=
  unit_loop 4 (nearest_double size_bytes) 0.

(** [size] after the loop, in tenths, rounded as [.1f] does; the sign is
    kept apart. *)
Definition size_tenths (size_bytes : Z) : Z :=
  round_half_even (Z.abs (nearest_double size_bytes) * 10)
                  (1024 ^ Z.of_nat (size_unit_index size_bytes)).

(** [str(n)] for [0 <= n]. *)
Definition decimal (n : Z) : string :=
  NilZero.string_of_uint (N.to_uint (Z.to_N n)).

(** [format_size], lines 466-480; [None] is the [OverflowError] of
    [float(size_bytes)], which nothing in the function catches. *)
Definition format_size (size_bytes : Z) : option string :=
  if size_bytes =? 0 then Some "0 B"%string
  else
    match float_of_int size_bytes with
    | None => None
    | Some size =>
        let tenths := size_tenths size_bytes in
        Some ((if (size <? 0)%Z then "-" else "")
              ++ decimal (tenths / 10)%Z ++ "." ++ decimal (tenths mod 10)%Z
              ++ " " ++ nth (size_unit_index size_bytes) units "")%string
    end.

(** The node of a placement. *)
Definition placed_node (p : Placement) : Node :=
  let '(node, _, _, _, _) := p in node.

(** The placement lies in the rectangle with corner [(x, y)] and the given
    extent. *)
Definition inside (x y width height : Z) (p : Placement) : Prop :=
  let '(_, x1, y1, x2, y2) := p in
  x <= x1 /\ x2 <= x + width /\ y <= y1 /\ y2 <= y + height.

(** The strips follow one another from [start] to [stop]: each begins where
    the one before ended. *)
Fixpoint tiles (start stop : Z) (strips : list (Node * Z * Z)) : Prop :=
  match strips with
  | [] => start = stop
  | (_, current, share) :: rest =>
      current = start /\ tiles (start + share) stop rest
  end.

(** Larger or equal size first. *)
Definition size_ge (a b : Node) : Prop := size b <= size a.

(** [sample_tree] after the aggregation. *)
Definition sized_tree : Node :=
  match aggregate_size sample_tree with
  | Some (_, t) => t
  | None => sample_tree
  end.

(** A tree like [sample_tree] whose directories carry stale sizes. *)
Definition stale_tree : Node :=
  mkNode "C:" true
         (Some [mkNode "a" false None 5;
                mkNode "sub" true
                  (Some [mkNode "b" false None 7; mkNode "c" false None 1]) 99;
                mkNode "e" true (Some []) 4])
         1000.

(** * Properties *)

(** ** Reparse resolver *)

(** The buffer of line 71 is 16 bytes short of the structure laid over it
    at line 80. *)
Lemma reparse_buffer_too_small :
  MAX_REPARSE_SIZE = 16384 /\ sizeof_GENERIC_REPARSE_BUFFER = 16400.
Proof. split; reflexivity. Qed.

(** So the copy at line 80 raises whatever the buffer holds. *)
Lemma from_buffer_copy_raises content :
  from_buffer_copy MAX_REPARSE_SIZE content = None.
Proof. reflexivity. Qed.

(** Every exit left to a reparse point returns [False]: the statements from
    line 81 on, the classification of the target among them, never run. *)
Lemma reparse_point_not_same_volume os path volume_letter :
  is_reparse_point os path = true ->
  is_reparse_point_target_same_volume os path volume_letter = false.
Proof.
  unfold is_reparse_point, is_reparse_point_target_same_volume.
  destruct (_get_attrs os path) as [attrs|]; [|discriminate].
  destruct (Z.land attrs FILE_ATTRIBUTE_REPARSE_POINT =? 0); [discriminate|].
  intros _. destruct (read_reparse_data os path) as [buf|]; [|reflexivity].
  rewrite from_buffer_copy_raises. reflexivity.
Qed.

(** C3. For a reparse point whose substitute name holds a UNC marker, as
    the specification writes the two, the resolver answers [False] (not the
    same volume), whatever else the name holds, a drive letter included,
    and whatever the root volume.  The answer does not come from the test
    of line 90, which is never reached: the copy at line 80 raises, and
    the handler at line 86 returns [False]. *)
Theorem unc_target_not_same_volume os path rdb volume_letter :
  is_reparse_point os path = true ->
  read_reparse_data os path = Some rdb ->
  (str_in spec_marker_nt_unc (substitute_name rdb) = true
   \/ str_in spec_marker_net_unc (substitute_name rdb) = true) ->
  is_reparse_point_target_same_volume os path volume_letter = false.
Proof.
  intros Hrp _ _. apply reparse_point_not_same_volume. exact Hrp.
Qed.

(** ** Size aggregator *)

Lemma aggregate_size_eq nm d ch sz :
  aggregate_size (mkNode nm d ch sz) =
  if negb d then Some (sz, mkNode nm d ch sz)
  else
    match ch with
    | None => None
    | Some l =>
        match aggregate_children l 0 with
        | None => None
        | Some (total, l') => Some (total, mkNode nm d (Some l') total)
        end
    end.
Proof. reflexivity. Qed.

(** The value returned is the size left in the node. *)
Lemma aggregate_size_returns_size n total n' :
  aggregate_size n = Some (total, n') -> size n' = total.
Proof.
  destruct n as [nm d ch sz]. rewrite aggregate_size_eq.
  destruct d; simpl.
  - destruct ch as [l|]; [|discriminate].
    destruct (aggregate_children l 0) as [[t l']|]; [|discriminate].
    intros H; inversion H; reflexivity.
  - intros H; inversion H; reflexivity.
Qed.

Lemma aggregate_children_inv l :
  forall total t l',
    aggregate_children l total = Some (t, l') ->
    Forall2 (fun c c' => aggregate_size c = Some (size c', c')) l l'
    /\ t = total + sum_sizes l'.
Proof.
  induction l as [|c l IH]; simpl; intros total t l' H.
  - inversion H; subst. split; [constructor | simpl; lia].
  - destruct (aggregate_size c) as [[s c']|] eqn:Ec; [|discriminate].
    destruct (aggregate_children l (total + s)) as [[t1 l1]|] eqn:E;
      [|discriminate].
    inversion H; subst.
    destruct (IH _ _ _ E) as [HF Ht].
    pose proof (aggregate_size_returns_size _ _ _ Ec) as Hs.
    split.
    + constructor; [rewrite Hs; exact Ec | exact HF].
    + simpl. lia.
Qed.

Lemma aggregate_children_fixed l :
  Forall (fun c => aggregate_size c = Some (size c, c)) l ->
  forall total, aggregate_children l total = Some (total + sum_sizes l, l).
Proof.
  induction 1 as [|c l Hc _ IH]; simpl; intros total.
  - f_equal. f_equal. lia.
  - rewrite Hc, IH. f_equal. f_equal. lia.
Qed.

Lemma aggregate_children_total l :
  Forall (fun c => exists r, aggregate_size c = Some r) l ->
  forall total, exists r, aggregate_children l total = Some r.
Proof.
  induction 1 as [|c l [[s c'] Hc] _ IH]; simpl; intros total.
  - eexists; reflexivity.
  - rewrite Hc. destruct (IH (total + s)) as [[t l'] E]. rewrite E.
    eexists; reflexivity.
Qed.

Lemma well_formed_inv nm d ch sz :
  well_formed (mkNode nm d ch sz) ->
  (d = true <-> ch <> None)
  /\ forall l, ch = Some l -> Forall well_formed l.
Proof.
  unfold well_formed; simpl. intros H. inversion H as [|? ? Hn Hrest]; subst.
  split; [exact Hn|].
  intros l ->. apply Forall_flat_map in Hrest. exact Hrest.
Qed.

Lemma well_formed_intro nm d ch sz :
  (d = true <-> ch <> None) ->
  (forall l, ch = Some l -> Forall well_formed l) ->
  well_formed (mkNode nm d ch sz).
Proof.
  intros Hn Hl. unfold well_formed; simpl. constructor; [exact Hn|].
  destruct ch as [l|]; [|constructor].
  apply Forall_flat_map. apply Hl. reflexivity.
Qed.

(** On a tree of the entry model the aggregation runs to completion. *)
Lemma aggregate_size_complete t :
  well_formed t -> exists r, aggregate_size t = Some r.
Proof.
  induction t as [nm d sz | nm d l sz IH] using Node_nested_ind; intros Hwf;
    apply well_formed_inv in Hwf; destruct Hwf as [Hd Hl];
    rewrite aggregate_size_eq.
  - assert (d = false) as ->.
    { destruct d; [|reflexivity]. exfalso. apply (proj1 Hd); reflexivity. }
    eexists; reflexivity.
  - assert (d = true) as -> by (apply Hd; discriminate).
    specialize (Hl l eq_refl). simpl.
    destruct (aggregate_children_total l) with (total := 0) as [[t l'] E].
    + rewrite Forall_forall in *. intros c Hc. apply IH; auto.
    + rewrite E. eexists; reflexivity.
Qed.

(** On such a tree every node is an entry. *)
Lemma well_formed_entries t : well_formed t -> tree_entries t = nodes t.
Proof.
  induction t as [nm d sz | nm d l sz IH] using Node_nested_ind; intros Hwf;
    apply well_formed_inv in Hwf; destruct Hwf as [Hd Hl]; simpl.
  - destruct d; reflexivity.
  - assert (d = true) as -> by (apply Hd; discriminate).
    specialize (Hl l eq_refl). f_equal. clear Hd.
    induction l as [|c l IHl]; simpl; [reflexivity|].
    inversion IH; inversion Hl; subst. f_equal; auto.
Qed.

Lemma aggregate_size_sums t :
  forall total t',
    aggregate_size t = Some (total, t') ->
    Forall dir_size_is_sum (tree_entries t').
Proof.
  induction t as [nm d sz | nm d l sz IH] using Node_nested_ind;
    intros total t'; rewrite aggregate_size_eq; destruct d; simpl;
    try discriminate;
    try solve [intros H; inversion H; subst; simpl;
               constructor; [intros Hd; discriminate | constructor]].
  destruct (aggregate_children l 0) as [[t l']|] eqn:E; [|discriminate].
  intros H; inversion H; subst; clear H.
  destruct (aggregate_children_inv _ _ _ _ E) as [HF2 Ht].
  simpl. constructor.
  - intros _. exists l'. simpl. split; [reflexivity | lia].
  - apply Forall_flat_map.
    clear E Ht. induction HF2 as [|c c' l l' Hcc _ IH2]; constructor.
    + inversion IH; subst. eauto.
    + inversion IH; subst. auto.
Qed.

Lemma aggregate_size_fixed t :
  forall total t',
    aggregate_size t = Some (total, t') ->
    aggregate_size t' = Some (total, t').
Proof.
  induction t as [nm d sz | nm d l sz IH] using Node_nested_ind;
    intros total t'; rewrite aggregate_size_eq; destruct d; simpl;
    try discriminate;
    try solve [intros H; inversion H; subst; reflexivity].
  destruct (aggregate_children l 0) as [[t l']|] eqn:E; [|discriminate].
  intros H; inversion H; subst; clear H.
  destruct (aggregate_children_inv _ _ _ _ E) as [HF2 Ht].
  rewrite aggregate_size_eq; simpl.
  rewrite aggregate_children_fixed.
  - rewrite <- Ht. reflexivity.
  - clear E Ht. induction HF2 as [|c c' l l' Hcc _ IH2]; constructor.
    + inversion IH; subst. eauto.
    + inversion IH; subst. auto.
Qed.

Lemma Forall2_nth_error {A B} (R : A -> B -> Prop) l l' :
  Forall2 R l l' ->
  forall i a, nth_error l i = Some a ->
              exists b, nth_error l' i = Some b /\ R a b.
Proof.
  induction 1 as [|x y l l' Hxy _ IH]; intros [|i] a; simpl; try discriminate.
  - intros H; inversion H; subst. eauto.
  - apply IH.
Qed.

(** One run leaves everything but directory sizes as it was. *)
Lemma aggregate_size_blank t :
  forall total t',
    aggregate_size t = Some (total, t') ->
    blank_dir_sizes t' = blank_dir_sizes t.
Proof.
  induction t as [nm d sz | nm d l sz IH] using Node_nested_ind;
    intros total t'; rewrite aggregate_size_eq; destruct d; simpl;
    try discriminate;
    try solve [intros H; inversion H; subst; reflexivity].
  destruct (aggregate_children l 0) as [[t l']|] eqn:E; [|discriminate].
  intros H; inversion H; subst; clear H.
  destruct (aggregate_children_inv _ _ _ _ E) as [HF2 _].
  simpl. do 2 f_equal.
  clear E. induction HF2 as [|c c' l l' Hcc _ IH2]; simpl; [reflexivity|].
  inversion IH; subst. f_equal; eauto.
Qed.

(** Every entry of the tree is aggregated in its place. *)
Lemma aggregate_size_entry_at t :
  forall total t',
    aggregate_size t = Some (total, t') ->
    forall p d, entry_at p t = Some d ->
      exists d', aggregate_size d = Some (size d', d')
                 /\ entry_at p t' = Some d'.
Proof.
  induction t as [nm d sz | nm d l sz IH] using Node_nested_ind;
    intros total t' Hrun p e Hp.
  - destruct p as [|i p].
    + simpl in Hp. injection Hp as <-. exists t'. split; [|reflexivity].
      rewrite (aggregate_size_returns_size _ _ _ Hrun). exact Hrun.
    + simpl in Hp. destruct d; discriminate.
  - destruct p as [|i p].
    + simpl in Hp. injection Hp as <-. exists t'. split; [|reflexivity].
      rewrite (aggregate_size_returns_size _ _ _ Hrun). exact Hrun.
    + rewrite aggregate_size_eq in Hrun. destruct d; [|discriminate].
      simpl in Hrun.
      destruct (aggregate_children l 0) as [[t l']|] eqn:E; [|discriminate].
      injection Hrun as _ <-.
      destruct (aggregate_children_inv _ _ _ _ E) as [HF2 _].
      simpl in Hp. destruct (nth_error l i) as [c|] eqn:Ec; [|discriminate].
      destruct (Forall2_nth_error _ _ _ HF2 i c Ec) as [c' [Ec' Hc]].
      rewrite Forall_forall in IH.
      destruct (IH c (nth_error_In _ _ Ec) _ _ Hc p e Hp) as [d' [Hd' Hp']].
      exists d'. split; [exact Hd'|]. simpl. rewrite Ec'. exact Hp'.
Qed.

(** C4. After aggregation has run to completion the tree is the one it
    ran on, directory sizes apart, and every directory of it, at any depth,
    is found at its place with a size that is the sum of the sizes of its
    children; the value returned is the size left in the root. *)
Theorem aggregate_size_directory_sums t total t' :
  aggregate_size t = Some (total, t') ->
  size t' = total
  /\ blank_dir_sizes t' = blank_dir_sizes t
  /\ (forall p d, entry_at p t = Some d -> is_dir d = true ->
        exists d' cs,
          entry_at p t' = Some d'
          /\ blank_dir_sizes d' = blank_dir_sizes d
          /\ children d' = Some cs
          /\ size d' = sum_sizes cs)
  /\ (forall d, In d (tree_entries t') -> is_dir d = true ->
        exists cs, children d = Some cs /\ size d = sum_sizes cs).
Proof.
  intros Hrun. split; [eapply aggregate_size_returns_size; eauto|].
  split; [eapply aggregate_size_blank; eauto|].
  split.
  - intros p d Hp Hdir.
    destruct (aggregate_size_entry_at t total t' Hrun p d Hp) as [d' [Hd' Hp']].
    pose proof (aggregate_size_blank _ _ _ Hd') as Hb.
    pose proof (aggregate_size_sums _ _ _ Hd') as Hs.
    assert (Hdir' : is_dir d' = true).
    { destruct d, d'. simpl in Hb. injection Hb as _ -> _ _. exact Hdir. }
    destruct d' as [nm' dd' ch' sz']. simpl in Hs.
    apply Forall_inv in Hs. destruct (Hs Hdir') as [cs [Hc Hsz]].
    exists (mkNode nm' dd' ch' sz'), cs. auto.
  - intros d Hin Hdir.
    pose proof (aggregate_size_sums t total t' Hrun) as Hok.
    rewrite Forall_forall in Hok. exact (Hok d Hin Hdir).
Qed.

(** A file keeps its place and its content. *)
Lemma aggregate_size_file_at t :
  forall total t' p f,
    aggregate_size t = Some (total, t') ->
    subnode p t = Some f -> is_dir f = false ->
    subnode p t' = Some f.
Proof.
  induction t as [nm d sz | nm d l sz IH] using Node_nested_ind;
    intros total t' p f; rewrite aggregate_size_eq; destruct d; simpl;
    try discriminate;
    try solve [intros H; inversion H; subst; auto].
  destruct (aggregate_children l 0) as [[t l']|] eqn:E; [|discriminate].
  intros H; inversion H; subst; clear H.
  destruct (aggregate_children_inv _ _ _ _ E) as [HF2 _].
  destruct p as [|i p]; simpl.
  - intros H; inversion H; subst. simpl. discriminate.
  - destruct (nth_error l i) as [c|] eqn:Ei; [|discriminate].
    intros Hsub Hfile.
    destruct (Forall2_nth_error _ _ _ HF2 _ _ Ei) as [c' [Ei' Hcc]].
    rewrite Ei'.
    rewrite Forall_forall in IH.
    eapply IH; eauto. eapply nth_error_In; eauto.
Qed.

(** C7. Aggregation is idempotent: a second run on the tree the first run
    left, whose file sizes are those of the first run, returns the same
    total and leaves the same tree, hence the same size in every node. *)
Theorem aggregate_size_idempotent t total t' :
  aggregate_size t = Some (total, t') ->
  aggregate_size t' = Some (total, t').
Proof. apply aggregate_size_fixed. Qed.

(** C9. Aggregation never modifies a file node: the node found at the
    position of a file after the run is that file, size included, and what
    differs between the two trees is confined to the size field of
    directories. *)
Theorem aggregate_size_frame t total t' :
  aggregate_size t = Some (total, t') ->
  (forall p f, subnode p t = Some f -> is_dir f = false ->
     exists f', subnode p t' = Some f' /\ size f' = size f /\ f' = f)
  /\ blank_dir_sizes t' = blank_dir_sizes t.
Proof.
  intros H. split.
  - intros p f Hp Hf. exists f. repeat split.
    eapply aggregate_size_file_at; eauto.
  - eapply aggregate_size_blank; eauto.
Qed.

(** ** Entry model invariant *)

Lemma new_Node_children_iff_dir nm d sz : children_iff_dir (new_Node nm d sz).
Proof.
  unfold children_iff_dir, new_Node; simpl.
  destruct d; split; intros H; try discriminate; try reflexivity.
  exfalso; apply H; reflexivity.
Qed.

Lemma new_Node_well_formed nm d sz : well_formed (new_Node nm d sz).
Proof.
  apply well_formed_intro.
  - apply (new_Node_children_iff_dir nm d sz).
  - intros l H. destruct d; inversion H; subst. constructor.
Qed.

Lemma add_child_children_iff_dir self ch :
  children_iff_dir self -> children_iff_dir (add_child self ch).
Proof.
  unfold children_iff_dir, add_child.
  destruct (children self) as [l|] eqn:E; simpl; [|rewrite E; auto].
  intros [H1 H2]. split; intros _; [discriminate|].
  apply H2. discriminate.
Qed.

Lemma add_child_well_formed self ch :
  well_formed self -> well_formed ch -> well_formed (add_child self ch).
Proof.
  destruct self as [nm d chn sz]. unfold add_child; simpl.
  intros Hs Hc. destruct chn as [l|]; [|exact Hs].
  apply well_formed_inv in Hs. destruct Hs as [Hd Hl].
  apply well_formed_intro.
  - split; intros _; [discriminate|]. apply Hd; discriminate.
  - intros l0 H0; inversion H0; subst.
    apply Forall_app. split; [apply Hl; reflexivity|].
    constructor; [exact Hc | constructor].
Qed.

Lemma aggregate_size_well_formed t :
  forall total t',
    aggregate_size t = Some (total, t') -> well_formed t -> well_formed t'.
Proof.
  induction t as [nm d sz | nm d l sz IH] using Node_nested_ind;
    intros total t'; rewrite aggregate_size_eq; destruct d; simpl;
    try discriminate;
    try solve [intros H; inversion H; subst; auto].
  destruct (aggregate_children l 0) as [[t l']|] eqn:E; [|discriminate].
  intros H Hwf; inversion H; subst; clear H.
  destruct (aggregate_children_inv _ _ _ _ E) as [HF2 _].
  apply well_formed_inv in Hwf. destruct Hwf as [_ Hl].
  specialize (Hl l eq_refl).
  apply well_formed_intro.
  - split; intros _; [discriminate | reflexivity].
  - intros l0 H0; inversion H0; subst; clear H0.
    clear E. induction HF2 as [|c c' l l' Hcc _ IH2]; constructor.
    + inversion IH; inversion Hl; subst. eauto.
    + inversion IH; inversion Hl; subst. auto.
Qed.

(** C10. [add_child] on a node whose [children] is absent, as it is for a
    file, changes nothing; with it, every operation of the model keeps
    children present exactly for directory nodes: the constructor
    establishes it, [add_child] and [aggregate_size] preserve it, at the node
    and throughout the tree. *)
Theorem add_child_on_file_is_noop :
  (forall self ch, children self = None -> add_child self ch = self)
  /\ (forall nm d sz, children_iff_dir (new_Node nm d sz))
  /\ (forall self ch,
        children_iff_dir self -> children_iff_dir (add_child self ch))
  /\ (forall self ch,
        well_formed self -> well_formed ch -> well_formed (add_child self ch))
  /\ (forall t total t',
        aggregate_size t = Some (total, t') ->
        well_formed t -> well_formed t').
Proof.
  repeat split.
  - intros self ch H. unfold add_child. rewrite H. reflexivity.
  - apply (new_Node_children_iff_dir nm d sz).
  - intros H. apply (proj2 (new_Node_children_iff_dir nm d sz) H).
  - apply (add_child_children_iff_dir self ch H).
  - apply (add_child_children_iff_dir self ch H).
  - apply add_child_well_formed.
  - intros t total t'. apply aggregate_size_well_formed.
Qed.

(** ** Tree builder *)

Section BuilderFacts.
Variable os : OS.

Lemma build_tree_fuel_eq fuel path parent depth max_depth vol :
  build_tree_fuel os fuel path parent depth max_depth vol =
  let node := fresh_node os path parent in
  if (is_reparse_point os path
      && negb (is_reparse_point_target_same_volume os path vol))%bool
  then Some None
  else if (is_dir node && (depth <? max_depth))%bool then
    match fuel with
    | O => None
    | S fuel' =>
        match
          scan_entries os
            (fun entry_path node =>
               build_tree_fuel os fuel' entry_path (Some node) (depth + 1)
                               max_depth vol)
            vol (fst (os_scandir os path)) node
        with
        | LoopNoFuel => None
        | LoopRaised _ => Some None
        | LoopDone node' =>
            match snd (os_scandir os path) with
            | None => Some (Some node')
            | Some _ => Some None
            end
        end
    end
  else Some (Some node).
Proof.
  unfold fresh_node.
  destruct fuel; simpl; destruct parent; simpl;
    repeat match goal with
           | |- context [os_scandir os path] =>
               destruct (os_scandir os path) as [entries [[|]|]]; simpl
           | |- context [if ?b then _ else _] => destruct b; simpl
           | |- context [match scan_entries ?a ?b ?c ?d ?e with _ => _ end] =>
               destruct (scan_entries a b c d e); simpl
           end; reflexivity.
Qed.

(** The loop, one entry at a time. *)
Lemma scan_entries_invariant (I P : Node -> Prop) build vol :
  (forall n c, I n -> P c -> I (add_child n c)) ->
  (forall p n c, build p n = Some (Some c) -> P c) ->
  (forall nm sz, P (new_Node nm false sz)) ->
  forall entries node node',
    I node ->
    scan_entries os build vol entries node = LoopDone node' ->
    I node'.
Proof.
  intros Hadd Hbuild Hfile.
  induction entries as [|e rest IH]; simpl; intros node node' HI H.
  - inversion H; subst; exact HI.
  - destruct (scan_entry os build vol e node) as [n1| |] eqn:E;
      try discriminate.
    apply (IH n1 node'); [|exact H].
    unfold scan_entry in E.
    destruct (entry_is_dir e) as [[|]|[|]].
    + inversion E; subst; exact HI.
    + discriminate.
    + destruct (is_reparse_point os (entry_path e)
                && negb (is_reparse_point_target_same_volume
                           os (entry_path e) vol))%bool.
      * inversion E; subst; exact HI.
      * destruct (build (entry_path e) node) as [[c|]|] eqn:Eb;
          inversion E; subst; eauto.
    + destruct (_ >? 0); inversion E; subst; auto.
Qed.

Lemma scan_entries_fuel build vol :
  (forall p n, build p n <> None) ->
  forall entries node, scan_entries os build vol entries node <> LoopNoFuel.
Proof.
  intros Hb. induction entries as [|e rest IH]; simpl; intros node.
  - discriminate.
  - destruct (scan_entry os build vol e node) as [n1| |] eqn:E;
      [apply IH | discriminate |].
    unfold scan_entry in E.
    destruct (entry_is_dir e) as [[|]|[|]]; try discriminate.
    + destruct (_ && _)%bool; [discriminate|].
      destruct (build (entry_path e) node) as [[c|]|] eqn:Eb;
        try discriminate.
      exfalso; eapply Hb; eauto.
    + destruct (_ >? 0); discriminate.
Qed.

(** [max_depth - depth] levels of recursion are enough for a result. *)
Lemma build_tree_fuel_enough fuel :
  forall path parent depth max_depth vol,
    (Z.to_nat (max_depth - depth) <= fuel)%nat ->
    build_tree_fuel os fuel path parent depth max_depth vol <> None.
Proof.
  induction fuel as [|fuel IH]; intros path parent depth max_depth vol Hf;
    rewrite build_tree_fuel_eq; cbv zeta;
    destruct (_ && negb _)%bool; try discriminate;
    destruct (is_dir _ && (depth <? max_depth))%bool eqn:Et;
    try discriminate.
  - apply andb_prop in Et. destruct Et as [_ Et].
    apply Z.ltb_lt in Et. lia.
  - apply andb_prop in Et. destruct Et as [_ Et]. apply Z.ltb_lt in Et.
    destruct (scan_entries _ _ _ _ _) eqn:Es.
    + destruct (snd (os_scandir os path)); discriminate.
    + discriminate.
    + exfalso. revert Es. apply scan_entries_fuel.
      intros p n. apply IH. lia.
Qed.

Lemma scan_entries_mono build1 build2 vol :
  (forall p n r, build1 p n = Some r -> build2 p n = Some r) ->
  forall entries node,
    scan_entries os build1 vol entries node <> LoopNoFuel ->
    scan_entries os build2 vol entries node =
    scan_entries os build1 vol entries node.
Proof.
  intros Hb. induction entries as [|e rest IH]; simpl; intros node H.
  - reflexivity.
  - assert (E : scan_entry os build1 vol e node <> LoopNoFuel ->
                scan_entry os build2 vol e node =
                scan_entry os build1 vol e node).
    { unfold scan_entry.
      destruct (entry_is_dir e) as [[|]|[|]]; try reflexivity.
      destruct (_ && _)%bool; [reflexivity|].
      destruct (build1 (entry_path e) node) as [r|] eqn:E1.
      - rewrite (Hb _ _ _ E1). reflexivity.
      - intros H0; exfalso; apply H0; reflexivity. }
    destruct (scan_entry os build1 vol e node) as [n1| |] eqn:E1.
    + rewrite E by discriminate. apply IH. exact H.
    + rewrite E by discriminate. reflexivity.
    + exfalso; apply H; reflexivity.
Qed.

(** More budget does not change a result. *)
Lemma build_tree_fuel_mono fuel :
  forall fuel' path parent depth max_depth vol r,
    (fuel <= fuel')%nat ->
    build_tree_fuel os fuel path parent depth max_depth vol = Some r ->
    build_tree_fuel os fuel' path parent depth max_depth vol = Some r.
Proof.
  induction fuel as [|fuel IH];
    intros fuel' path parent depth max_depth vol r Hle;
    rewrite !build_tree_fuel_eq; cbv zeta;
    destruct (_ && negb _)%bool; auto;
    destruct (is_dir _ && (depth <? max_depth))%bool eqn:Et; auto;
    try discriminate.
  destruct fuel' as [|fuel']; [lia|].
  intros H.
  rewrite (scan_entries_mono
             (fun p n => build_tree_fuel os fuel p (Some n) (depth + 1)
                                         max_depth vol)).
  - exact H.
  - intros p n r0. apply IH. lia.
  - intros E. rewrite E in H. discriminate.
Qed.

(** [build_tree] is what any sufficient budget computes. *)
Lemma build_tree_fuel_build_tree fuel path parent depth max_depth vol r :
  build_tree_fuel os fuel path parent depth max_depth vol = Some r ->
  build_tree os path parent depth max_depth vol = r.
Proof.
  intros H. unfold build_tree.
  destruct (build_tree_fuel os (Z.to_nat (max_depth - depth)) path parent
                            depth max_depth vol) as [r'|] eqn:E.
  - apply build_tree_fuel_mono
      with (fuel' := Nat.max fuel (Z.to_nat (max_depth - depth))) in H;
      [|lia].
    apply build_tree_fuel_mono
      with (fuel' := Nat.max fuel (Z.to_nat (max_depth - depth))) in E;
      [|lia].
    congruence.
  - exfalso. revert E. apply build_tree_fuel_enough. lia.
Qed.

Lemma build_tree_returns path parent depth max_depth vol :
  build_tree_fuel os (Z.to_nat (max_depth - depth)) path parent
                  depth max_depth vol
  = Some (build_tree os path parent depth max_depth vol).
Proof.
  destruct (build_tree_fuel os (Z.to_nat (max_depth - depth)) path parent
                            depth max_depth vol) as [r|] eqn:E.
  - f_equal. symmetry. eapply build_tree_fuel_build_tree; eauto.
  - exfalso. revert E. apply build_tree_fuel_enough. lia.
Qed.
End BuilderFacts.

Section BuilderDepth.
Variable os : OS.

Lemma fresh_node_children path parent :
  children_list (fresh_node os path parent) = [].
Proof.
  unfold fresh_node, new_Node, children_list.
  destruct parent; simpl; [destruct (os_path_isdir os path)|]; reflexivity.
Qed.

Lemma children_list_add_child n c :
  children_list (add_child n c) = children_list n
  \/ children_list (add_child n c) = children_list n ++ [c].
Proof.
  unfold add_child, children_list.
  destruct (children n) as [l|] eqn:E; simpl; [right | left; rewrite E];
    reflexivity.
Qed.

Lemma within_node b n :
  0 <= b ->
  Forall (within (b - 1)) (children_list n) ->
  within b n.
Proof.
  intros Hb Hc [|k] m; simpl.
  - intros _. exact Hb.
  - unfold children_list in Hc.
    destruct (children n) as [l|]; [|intros []].
    intros Hin. apply in_flat_map in Hin. destruct Hin as [c [Hcl Hm]].
    rewrite Forall_forall in Hc. specialize (Hc c Hcl k m Hm). lia.
Qed.

(** A call at [depth] returns a tree that reaches no deeper than
    [max_depth]: its nodes lie at most [max_depth - depth] levels below
    it, whatever was pruned on the way. *)
Lemma build_tree_fuel_within fuel :
  forall path parent depth max_depth vol t,
    build_tree_fuel os fuel path parent depth max_depth vol = Some (Some t) ->
    within (Z.max 0 (max_depth - depth)) t.
Proof.
  induction fuel as [|fuel IH]; intros path parent depth max_depth vol t;
    rewrite build_tree_fuel_eq; cbv zeta;
    destruct (_ && negb _)%bool; try discriminate;
    destruct (is_dir _ && (depth <? max_depth))%bool eqn:Et;
    try discriminate;
    try (intros H; inversion H; subst;
         apply within_node; [lia | rewrite fresh_node_children; constructor]).
  apply andb_prop in Et. destruct Et as [_ Et]. apply Z.ltb_lt in Et.
  destruct (scan_entries _ _ _ _ _) as [node'| |] eqn:Es; try discriminate.
  destruct (snd (os_scandir os path)); [discriminate|].
  intros H; inversion H; subst; clear H.
  apply within_node; [lia|].
  revert Es.
  apply (scan_entries_invariant os
           (fun n => Forall (within (Z.max 0 (max_depth - depth) - 1))
                            (children_list n))
           (within (Z.max 0 (max_depth - depth) - 1))).
  - intros n c Hn Hc.
    destruct (children_list_add_child n c) as [-> | ->]; [exact Hn|].
    apply Forall_app. split; [exact Hn | constructor; [exact Hc|constructor]].
  - intros p n c Hb. apply IH in Hb.
    replace (Z.max 0 (max_depth - depth) - 1)
      with (Z.max 0 (max_depth - (depth + 1))) by lia.
    exact Hb.
  - intros nm sz. apply within_node; [lia|]. simpl. constructor.
  - rewrite fresh_node_children. constructor.
Qed.

(** C6, amended. In the tree that [build_tree] returns for a scan started
    at the root (depth 0) with a depth limit [max_depth], no entry lies
    more than [max (0, max_depth)] levels below the root: [max_depth]
    levels for a limit that is not negative, and the root alone, which is
    always there, for a negative one.  The bound counts from the root of
    the scan: a nested call at [depth] is held to [max_depth - depth]
    levels by [build_tree_fuel_within], whatever was pruned above or beside
    it. *)
Theorem build_tree_depth_bound path max_depth vol t :
  build_tree os path None 0 max_depth vol = Some t ->
  forall k n, In n (nodes_at_depth k t) -> Z.of_nat k <= Z.max 0 max_depth.
Proof.
  intros H k n Hin.
  pose proof (build_tree_returns os path None 0 max_depth vol) as Hr.
  rewrite H in Hr. apply build_tree_fuel_within in Hr.
  specialize (Hr k n Hin). lia.
Qed.

(** Every tree the builder returns satisfies the entry model invariant. *)
Lemma build_tree_fuel_well_formed fuel :
  forall path parent depth max_depth vol t,
    build_tree_fuel os fuel path parent depth max_depth vol = Some (Some t) ->
    well_formed t.
Proof.
  assert (Hfresh : forall path parent, well_formed (fresh_node os path parent)).
  { intros path parent. unfold fresh_node.
    destruct parent; apply new_Node_well_formed. }
  induction fuel as [|fuel IH]; intros path parent depth max_depth vol t;
    rewrite build_tree_fuel_eq; cbv zeta;
    destruct (_ && negb _)%bool; try discriminate;
    destruct (is_dir _ && (depth <? max_depth))%bool eqn:Et;
    try discriminate;
    try (intros H; inversion H; subst; apply Hfresh).
  destruct (scan_entries _ _ _ _ _) as [node'| |] eqn:Es; try discriminate.
  destruct (snd (os_scandir os path)); [discriminate|].
  intros H; inversion H; subst; clear H.
  revert Es.
  apply (scan_entries_invariant os well_formed well_formed).
  - apply add_child_well_formed.
  - intros p n c Hb. apply IH in Hb. exact Hb.
  - intros nm sz. apply new_Node_well_formed.
  - apply Hfresh.
Qed.

Lemma build_tree_well_formed path parent depth max_depth vol t :
  build_tree os path parent depth max_depth vol = Some t ->
  well_formed t.
Proof.
  intros H.
  pose proof (build_tree_returns os path parent depth max_depth vol) as Hr.
  rewrite H in Hr. eapply build_tree_fuel_well_formed; eauto.
Qed.

(** A built tree can always be aggregated. *)
Lemma built_tree_aggregates path parent depth max_depth vol t :
  build_tree os path parent depth max_depth vol = Some t ->
  exists total t', aggregate_size t = Some (total, t').
Proof.
  intros H. apply build_tree_well_formed in H.
  destruct (aggregate_size_complete t H) as [[total t'] E]. eauto.
Qed.

(** C1 (amended).  When the enumeration of a directory is attempted (the
    node is a directory and [depth < max_depth]) and access to the
    directory is denied, whether before the first entry or later,
    [build_tree] returns [None]: no node is returned for it. *)
Theorem build_tree_denied_directory_absent path parent depth max_depth vol :
  snd (os_scandir os path) = Some PermissionError ->
  is_dir (fresh_node os path parent) = true ->
  depth < max_depth ->
  build_tree os path parent depth max_depth vol = None.
Proof.
  intros Hscan Hdir Hdepth.
  apply (build_tree_fuel_build_tree os (Z.to_nat (max_depth - depth))).
  rewrite build_tree_fuel_eq; cbv zeta.
  destruct (_ && negb _)%bool; [reflexivity|].
  rewrite Hdir. apply Z.ltb_lt in Hdepth. rewrite Hdepth. simpl.
  destruct (Z.to_nat (max_depth - depth)) as [|fuel] eqn:Ef.
  - apply Z.ltb_lt in Hdepth. lia.
  - destruct (scan_entries _ _ _ _ _) eqn:Es.
    + rewrite Hscan. reflexivity.
    + reflexivity.
    + exfalso. revert Es. apply scan_entries_fuel.
      intros p n. apply build_tree_fuel_enough. lia.
Qed.
End BuilderDepth.

(** ** Treemap layout *)

Lemma draw_node_recursive_eq fuel node x y width height level max_draw_depth :
  draw_node_recursive fuel node x y width height level max_draw_depth =
  if ((width <? 2) || (height <? 2))%bool then []
  else
    (node, x, y, x + width, y + height)
      :: (if (is_dir node && has_children node
              && (level <? max_draw_depth))%bool
          then
            let positive := filter (fun ch => size ch >? 0)
                                   (children_list node) in
            if sum_sizes positive =? 0 then []
            else
              match fuel with
              | O => []
              | S fuel' =>
                  draw_treemap (draw_node_recursive fuel')
                    (sorted_desc positive)
                    (x + 2) (y + 2) (width - 4) (height - 4)
                    (level + 1) max_draw_depth
              end
          else []).
Proof. destruct fuel; reflexivity. Qed.

Section LayoutFacts.
Variable P : Placement -> Prop.

(** What holds of everything the strips draw holds of the treemap. *)
Lemma draw_treemap_Forall draw :
  (forall n x y w h l m, Forall P (draw n x y w h l m)) ->
  forall nodes x y w h l m, Forall P (draw_treemap draw nodes x y w h l m).
Proof.
  intros Hd nodes x y w h l m. unfold draw_treemap.
  destruct nodes as [|n0 rest]; [constructor|].
  destruct ((w <? 4) || (h <? 4))%bool; [constructor|].
  destruct (sum_sizes (n0 :: rest) =? 0); [constructor|].
  destruct rest as [|n1 rest]; [apply Hd|].
  destruct (w >? h); apply Forall_flat_map; apply Forall_forall;
    intros [[n c] s] _; destruct (s >? 0); auto.
Qed.
End LayoutFacts.

Lemma draw_treemap_ext draw1 draw2 l m :
  (forall n x y w h, draw1 n x y w h l m = draw2 n x y w h l m) ->
  forall nodes x y w h,
    draw_treemap draw1 nodes x y w h l m = draw_treemap draw2 nodes x y w h l m.
Proof.
  intros Hd nodes x y w h. unfold draw_treemap.
  destruct nodes as [|n0 rest]; [reflexivity|].
  destruct ((w <? 4) || (h <? 4))%bool; [reflexivity|].
  destruct (sum_sizes (n0 :: rest) =? 0); [reflexivity|].
  destruct rest as [|n1 rest]; [apply Hd|].
  destruct (w >? h); apply flat_map_ext; intros [[n c] s];
    destruct (s >? 0); auto.
Qed.

(** A budget of [max_draw_depth - level] or more gives the layout. *)
Lemma draw_node_recursive_fuel fuel :
  forall node x y width height level max_draw_depth,
    (Z.to_nat (max_draw_depth - level) <= fuel)%nat ->
    draw_node_recursive fuel node x y width height level max_draw_depth
    = layout node x y width height level max_draw_depth.
Proof.
  unfold layout.
  induction fuel as [|fuel IH]; intros node x y w h level m Hf.
  - replace (Z.to_nat (m - level)) with O by lia. reflexivity.
  - rewrite !draw_node_recursive_eq.
    destruct ((w <? 2) || (h <? 2))%bool; [reflexivity|]. f_equal.
    destruct (level <? m) eqn:El;
      [|rewrite !andb_false_r; reflexivity].
    apply Z.ltb_lt in El.
    destruct (is_dir node && has_children node && true)%bool; [|reflexivity].
    cbv zeta. destruct (sum_sizes _ =? 0); [reflexivity|].
    destruct (Z.to_nat (m - level)) as [|k] eqn:Ek; [lia|].
    apply draw_treemap_ext. intros n x0 y0 w0 h0.
    rewrite IH by lia.
    replace k with (Z.to_nat (m - (level + 1))) by lia. reflexivity.
Qed.

Lemma draw_node_recursive_rectangles fuel :
  forall node x y width height level max_draw_depth,
    Forall (fun p => 2 <= rect_width p /\ 2 <= rect_height p)
           (draw_node_recursive fuel node x y width height
                                level max_draw_depth).
Proof.
  induction fuel as [|fuel IH]; intros node x y w h level m;
    rewrite draw_node_recursive_eq;
    destruct ((w <? 2) || (h <? 2))%bool eqn:Es; try constructor;
    apply orb_false_elim in Es; destruct Es as [Ew Eh];
    apply Z.ltb_ge in Ew; apply Z.ltb_ge in Eh;
    try (simpl; lia);
    destruct (is_dir node && has_children node && (level <? m))%bool;
    try constructor; cbv zeta;
    destruct (sum_sizes _ =? 0); try constructor.
  apply draw_treemap_Forall. exact IH.
Qed.

(** C8. Every placement the layout emits, for any node at any level, spans
    at least 2 units in each direction: [x2 - x1 >= 2] and [y2 - y1 >= 2]. *)
Theorem layout_rectangles_at_least_2 node x y width height level max_draw_depth :
  Forall (fun p => 2 <= rect_width p /\ 2 <= rect_height p)
         (layout node x y width height level max_draw_depth).
Proof. apply draw_node_recursive_rectangles. Qed.

(** A directory with one child of positive size hands the child the inset
    of its own rectangle. *)
Lemma layout_single_child nm sz c x y width height level max_draw_depth :
  0 < size c -> level < max_draw_depth ->
  8 <= width -> 8 <= height ->
  layout (mkNode nm true (Some [c]) sz) x y width height level max_draw_depth
  = (mkNode nm true (Some [c]) sz, x, y, x + width, y + height)
      :: layout c (x + 2) (y + 2) (width - 4) (height - 4)
                (level + 1) max_draw_depth.
Proof.
  intros Hc Hl Hw Hh. unfold layout at 1.
  rewrite draw_node_recursive_eq.
  replace ((width <? 2) || (height <? 2))%bool with false
    by (symmetry; apply orb_false_intro; apply Z.ltb_ge; lia).
  f_equal. simpl is_dir. unfold has_children, children_list. simpl children.
  apply Z.ltb_lt in Hl. rewrite Hl. simpl andb. cbv zeta. simpl filter.
  replace (size c >? 0) with true by (symmetry; apply Z.gtb_lt; lia).
  simpl sum_sizes. replace (size c + 0 =? 0) with false
    by (symmetry; apply Z.eqb_neq; lia).
  apply Z.ltb_lt in Hl.
  destruct (Z.to_nat (max_draw_depth - level)) as [|k] eqn:Ek; [lia|].
  simpl sorted_desc. unfold draw_treemap.
  replace ((width - 4 <? 4) || (height - 4 <? 4))%bool with false
    by (symmetry; apply orb_false_intro; apply Z.ltb_ge; lia).
  simpl sum_sizes. replace (size c + 0 =? 0) with false
    by (symmetry; apply Z.eqb_neq; lia).
  apply draw_node_recursive_fuel. lia.
Qed.

(** C5 (amended).  A directory with exactly one child of positive size,
    placed in the rectangle (0,0,40,40) at a level below [max_draw_depth],
    is itself placed at (0,0,40,40) and its child at the inset rectangle
    (2,2,38,38), directly after it. *)
Theorem single_child_placed_in_inset nm sz c level max_draw_depth :
  0 < size c -> level < max_draw_depth ->
  exists rest,
    layout (mkNode nm true (Some [c]) sz) 0 0 40 40 level max_draw_depth
    = (mkNode nm true (Some [c]) sz, 0, 0, 40, 40)
        :: (c, 2, 2, 38, 38) :: rest.
Proof.
  intros Hc Hl.
  rewrite layout_single_child by lia.
  unfold layout. rewrite draw_node_recursive_eq.
  simpl. eexists. reflexivity.
Qed.

(** *** [int(a / b)] against [floor(a / b)] *)

Lemma quotient_exponent_lower a b :
  0 < a -> 0 < b ->
  let e := quotient_exponent a b in
  b * 2 ^ Z.max 0 e <= a * 2 ^ Z.max 0 (- e).
Proof.
  intros Ha Hb. unfold quotient_exponent.
  set (e0 := Z.log2 a - Z.log2 b).
  destruct (a * 2 ^ Z.max 0 (- e0) <? b * 2 ^ Z.max 0 e0) eqn:E; cbv zeta.
  2:{ apply Z.ltb_ge in E. exact E. }
  clear E.
  pose proof (Z.log2_spec a Ha) as [La Ua].
  pose proof (Z.log2_spec b Hb) as [Lb Ub].
  pose proof (Z.log2_nonneg a) as Na.
  pose proof (Z.log2_nonneg b) as Nb.
  destruct (Z_le_gt_dec 1 e0) as [Hpos|Hneg].
  - (* b * 2^(e0-1) <= a *)
    replace (Z.max 0 (e0 - 1)) with (e0 - 1) by lia.
    replace (Z.max 0 (- (e0 - 1))) with 0 by lia.
    rewrite Z.pow_0_r, Z.mul_1_r.
    assert (H : 2 ^ Z.succ (Z.log2 b) * 2 ^ (e0 - 1) = 2 ^ Z.log2 a).
    { rewrite <- Z.pow_add_r by lia. f_equal. unfold e0. lia. }
    assert (0 < 2 ^ (e0 - 1)) by (apply Z.pow_pos_nonneg; lia).
    nia.
  - replace (Z.max 0 (e0 - 1)) with 0 by lia.
    replace (Z.max 0 (- (e0 - 1))) with (1 - e0) by lia.
    rewrite Z.pow_0_r, Z.mul_1_r.
    assert (H : 2 ^ Z.log2 a * 2 ^ (1 - e0) = 2 ^ Z.succ (Z.log2 b)).
    { rewrite <- Z.pow_add_r by lia. f_equal. unfold e0. lia. }
    assert (0 < 2 ^ (1 - e0)) by (apply Z.pow_pos_nonneg; lia).
    nia.
Qed.

Lemma round_half_even_cases num den :
  round_half_even num den = num / den
  \/ (round_half_even num den = num / den + 1 /\ den <= 2 * (num mod den)).
Proof.
  unfold round_half_even.
  destruct (2 * (num mod den) <? den) eqn:E1; [left; reflexivity|].
  apply Z.ltb_ge in E1.
  destruct (den <? 2 * (num mod den)); [right; auto|].
  destruct (Z.even (num / den)); [left; reflexivity | right; auto].
Qed.

Lemma int_truediv_pos_floor a b :
  0 < a < 2 ^ 53 -> 0 < b -> int_truediv_pos a b = a / b.
Proof.
  intros [Ha Hlt] Hb. unfold int_truediv_pos.
  pose proof (quotient_exponent_lower a b Ha Hb) as He. cbv zeta in He.
  set (e := quotient_exponent a b) in *.
  destruct (0 <=? 52 - e) eqn:Es.
  - apply Z.leb_le in Es.
    set (s := 52 - e) in *.
    assert (Hp : 0 < 2 ^ s) by (apply Z.pow_pos_nonneg; lia).
    assert (Hq : a * 2 ^ s / b / 2 ^ s = a / b).
    { rewrite Z.div_div by lia. rewrite Z.div_mul_cancel_r by lia. reflexivity. }
    assert (Hlow : b * 2 ^ 52 <= a * 2 ^ s).
    { destruct (Z_le_gt_dec 0 e).
      - replace (Z.max 0 e) with e in He by lia.
        replace (Z.max 0 (- e)) with 0 in He by lia.
        rewrite Z.pow_0_r, Z.mul_1_r in He.
        replace (2 ^ 52) with (2 ^ e * 2 ^ s)
          by (rewrite <- Z.pow_add_r by lia; f_equal; unfold s; lia).
        nia.
      - replace (Z.max 0 e) with 0 in He by lia.
        replace (Z.max 0 (- e)) with (- e) in He by lia.
        rewrite Z.pow_0_r, Z.mul_1_r in He.
        replace (2 ^ s) with (2 ^ (- e) * 2 ^ 52)
          by (rewrite <- Z.pow_add_r by lia; f_equal; unfold s; lia).
        nia. }
    destruct (round_half_even_cases (a * 2 ^ s) b) as [-> | [-> Hr]];
      [exact Hq|].
    rewrite <- Hq.
    set (q := a * 2 ^ s / b) in *.
    pose proof (Z.div_mod (a * 2 ^ s) b ltac:(lia)) as Hdm. fold q in Hdm.
    pose proof (Z.mod_pos_bound (a * 2 ^ s) b Hb) as Hrb.
    set (r := (a * 2 ^ s) mod b) in *.
    pose proof (Z.div_mod q (2 ^ s) ltac:(lia)) as Hq2.
    pose proof (Z.mod_pos_bound q (2 ^ s) Hp) as Hqb.
    destruct (Z_lt_ge_dec (q mod 2 ^ s) (2 ^ s - 1)) as [Hsmall|Hbig].
    + symmetry. apply Z.div_unique with (r := q mod 2 ^ s + 1); [lia|].
      lia.
    + exfalso.
      set (k := q / 2 ^ s + 1).
      assert (Hk : q + 1 = 2 ^ s * k) by (unfold k; lia).
      assert (Hd : 2 ^ s * (b * k - a) = b - r) by nia.
      assert (Hd1 : 1 <= b * k - a) by nia.
      assert (Hb2 : 2 * 2 ^ s <= b) by nia.
      assert (Ha2 : a * 2 ^ s < 2 ^ 53 * 2 ^ s) by nia.
      assert (H53 : 2 ^ 53 = 2 * 2 ^ 52) by reflexivity.
      nia.
  - exfalso. apply Z.leb_gt in Es.
    replace (Z.max 0 e) with e in He by lia.
    replace (Z.max 0 (- e)) with 0 in He by lia.
    rewrite Z.pow_0_r, Z.mul_1_r in He.
    assert (2 ^ 53 <= 2 ^ e) by (apply Z.pow_le_mono_r; lia).
    nia.
Qed.

Lemma int_truediv_floor a b :
  0 <= a < 2 ^ 53 -> 0 < b -> int_truediv a b = a / b.
Proof.
  intros [Ha Hlt] Hb. unfold int_truediv.
  destruct (a =? 0) eqn:E.
  - apply Z.eqb_eq in E. subst. reflexivity.
  - apply Z.eqb_neq in E.
    rewrite (Z.sgn_pos a), (Z.sgn_pos b), (Z.abs_eq a), (Z.abs_eq b) by lia.
    rewrite int_truediv_pos_floor by lia. lia.
Qed.


(** *** The strip-split step *)

Lemma sum_Z_app l1 l2 : sum_Z (l1 ++ l2) = sum_Z l1 + sum_Z l2.
Proof. induction l1 as [|a l1 IH]; simpl; [reflexivity | rewrite IH; lia]. Qed.

(** The shares of one run of the loop: the clamped quotient for every child
    but the last, and for the last what the others left. *)
Lemma strip_split_shares dimension total_size nodes :
  nodes <> [] ->
  forall current remaining,
    map (fun it => snd it)
        (strip_split dimension total_size nodes current remaining)
    = let init := map (fun n => Z.max 1 (int_truediv (dimension * size n)
                                                     total_size))
                      (removelast nodes) in
      init ++ [remaining - sum_Z init].
Proof.
  induction nodes as [|n rest IH]; intros Hne current remaining;
    [contradiction|].
  destruct rest as [|n2 rest].
  - simpl. f_equal. lia.
  - change (strip_split dimension total_size (n :: n2 :: rest)
                        current remaining)
      with (let w := Z.max 1 (int_truediv (dimension * size n) total_size) in
            (n, current, w)
              :: strip_split dimension total_size (n2 :: rest)
                   (if w >? 0 then current + w else current)
                   (remaining - w)).
    cbv zeta. rewrite map_cons. rewrite IH by discriminate.
    cbv zeta. change (removelast (n :: n2 :: rest))
      with (n :: removelast (n2 :: rest)).
    rewrite map_cons. simpl snd. simpl app. f_equal. f_equal. f_equal.
    simpl sum_Z. lia.
Qed.

Lemma nth_error_removelast {A} (l : list A) i :
  (S i < List.length l)%nat -> nth_error (removelast l) i = nth_error l i.
Proof.
  revert i. induction l as [|a l IH]; intros i Hi; [simpl in Hi; lia|].
  destruct l as [|b l]; [simpl in Hi; lia|].
  change (removelast (a :: b :: l)) with (a :: removelast (b :: l)).
  destruct i as [|i]; [reflexivity|].
  cbn [nth_error]. apply IH. cbn [List.length] in *. lia.
Qed.

Lemma length_removelast {A} (l : list A) :
  l <> [] -> S (List.length (removelast l)) = List.length l.
Proof.
  induction l as [|a l IH]; intros H; [contradiction|].
  destruct l as [|b l]; [reflexivity|].
  change (removelast (a :: b :: l)) with (a :: removelast (b :: l)).
  cbn [List.length]. f_equal. apply IH. discriminate.
Qed.

Lemma filter_positive_all l :
  Forall (fun w => 1 <= w) l -> filter (fun w => w >? 0) l = l.
Proof.
  induction 1 as [|w l Hw _ IH]; simpl; [reflexivity|].
  replace (w >? 0) with true by (symmetry; apply Z.gtb_lt; lia).
  f_equal. exact IH.
Qed.

(** What [draw_treemap] hands to the function that draws a strip is the
    issued shares: only the shares that pass [node_width > 0] are drawn,
    each as wide as its share. *)
Lemma strips_drawn_are_issued y h strips :
  map rect_width
      (flat_map (fun '(node, current_x, node_width) =>
                   if node_width >? 0
                   then [(node : Node, current_x, y, current_x + node_width,
                          y + h)]
                   else [])
                strips)
  = filter (fun w => w >? 0) (map (fun it => snd it) strips).
Proof.
  induction strips as [|[[n c] w] strips IH]; simpl; [reflexivity|].
  destruct (w >? 0); simpl; rewrite IH; [f_equal; lia | reflexivity].
Qed.

Lemma strip_shares_eq dimension nodes :
  nodes <> [] ->
  strip_shares dimension nodes =
  let init := map (fun n => Z.max 1 (int_truediv (dimension * size n)
                                                 (sum_sizes nodes)))
                  (removelast nodes) in
  init ++ [dimension - sum_Z init].
Proof. intros H. unfold strip_shares. apply strip_split_shares. exact H. Qed.

(** C2 (amended).  In the strip-split step over two or more children, each
    child except the last is assigned [max(1, int(dimension * childSize /
    totalSize))]; the quotient is a floating-point one, and it is [floor
    (dimension * childSize / totalSize)] whenever [0 <= dimension *
    childSize < 2^53] and [totalSize > 0].  The last child is assigned what
    the others left, so the assigned shares sum to the dimension.  A share
    is issued only if it is positive: the issued shares sum to the dimension
    exactly when the share left for the last child is not negative, and
    exceed it by the shortfall otherwise. *)
Theorem strip_shares_sum_to_dimension dimension nodes :
  (2 <= List.length nodes)%nat ->
  let shares := strip_shares dimension nodes in
  let total_size := sum_sizes nodes in
  List.length shares = List.length nodes
  /\ (forall i n,
        nth_error nodes i = Some n -> (S i < List.length nodes)%nat ->
        nth_error shares i
        = Some (Z.max 1 (int_truediv (dimension * size n) total_size))
        /\ (0 <= dimension * size n < 2 ^ 53 -> 0 < total_size ->
            nth_error shares i
            = Some (Z.max 1 (dimension * size n / total_size))))
  /\ last shares 0 = dimension - sum_Z (removelast shares)
  /\ sum_Z shares = dimension
  /\ sum_Z (issued_shares dimension nodes)
     = dimension - Z.min 0 (last shares 0).
Proof.
  intros Hlen shares total_size.
  assert (Hne : nodes <> []) by (intros ->; simpl in Hlen; lia).
  unfold issued_shares. subst shares.
  rewrite (strip_shares_eq dimension nodes Hne). cbv zeta.
  fold total_size.
  set (f := fun n => Z.max 1 (int_truediv (dimension * size n) total_size)).
  set (init := map f (removelast nodes)).
  assert (Hinit : Forall (fun w => 1 <= w) init).
  { subst init. apply Forall_forall. intros w Hw.
    apply in_map_iff in Hw. destruct Hw as [n [<- _]]. unfold f. lia. }
  repeat split.
  - rewrite length_app. subst init. rewrite length_map. simpl.
    rewrite <- (length_removelast nodes Hne). lia.
  - rewrite nth_error_app1.
    + subst init. rewrite nth_error_map.
      rewrite nth_error_removelast by exact H0. rewrite H. reflexivity.
    + subst init. rewrite length_map.
      pose proof (length_removelast nodes Hne). lia.
  - intros Hrange Htot. rewrite nth_error_app1.
    + subst init. rewrite nth_error_map.
      rewrite nth_error_removelast by exact H0. rewrite H. simpl.
      unfold f. rewrite int_truediv_floor by assumption. reflexivity.
    + subst init. rewrite length_map.
      pose proof (length_removelast nodes Hne). lia.
  - rewrite last_last, removelast_last. reflexivity.
  - rewrite sum_Z_app. simpl. lia.
  - rewrite last_last, filter_app, sum_Z_app.
    rewrite (filter_positive_all init Hinit). simpl.
    destruct (dimension - sum_Z init >? 0) eqn:E; simpl.
    + apply Z.gtb_lt in E. lia.
    + rewrite Z.gtb_ltb in E. apply Z.ltb_ge in E. lia.
Qed.

(** With a vertical split of two or more children, the widths handed on are
    the issued shares. *)
Lemma draw_treemap_issues_shares nodes x y width height level max_draw_depth :
  (2 <= List.length nodes)%nat ->
  4 <= height < width -> sum_sizes nodes <> 0 ->
  map rect_width
      (draw_treemap record_strip nodes x y width height level max_draw_depth)
  = issued_shares width nodes.
Proof.
  intros Hlen [Hh Hw] Htot. unfold draw_treemap.
  destruct nodes as [|n0 [|n1 rest]]; try (simpl in Hlen; lia).
  replace ((width <? 4) || (height <? 4))%bool with false
    by (symmetry; apply orb_false_intro; apply Z.ltb_ge; lia).
  replace (sum_sizes (n0 :: n1 :: rest) =? 0) with false
    by (symmetry; apply Z.eqb_neq; exact Htot).
  replace (width >? height) with true by (symmetry; apply Z.gtb_lt; lia).
  unfold record_strip. rewrite strips_drawn_are_issued.
  unfold issued_shares, strip_shares.
  rewrite !strip_split_shares by discriminate. reflexivity.
Qed.

(** ** The claims on concrete inputs *)

(** C1, the claim refuted: the root directory of [os_denied] cannot be
    listed, access being denied before any entry is yielded, and
    [build_tree] returns no node for it. *)
Lemma denied_root_returns_no_node :
  os_scandir os_denied "C:\" = ([], Some PermissionError)
  /\ 0 < 3
  /\ forall node, build_tree os_denied "C:\" None 0 3 "C:" <> Some node.
Proof.
  split; [reflexivity|]. split; [lia|].
  intros node. vm_compute. discriminate.
Qed.

Lemma build_tree_denied_directory_absent_witness :
  snd (os_scandir os_denied "C:\") = Some PermissionError
  /\ is_dir (fresh_node os_denied "C:\" None) = true
  /\ 0 < 3
  /\ build_tree os_denied "C:\" None 0 3 "C:" = None.
Proof.
  split; [reflexivity|]. split; [reflexivity|]. split; [lia|].
  apply (build_tree_denied_directory_absent os_denied "C:\" None 0 3 "C:");
    [reflexivity | reflexivity | lia].
Defined.

(** C2, the claim refuted: seven children of size 1 in a strip of 5 units.
    Six shares of 1 are issued, the seventh child is left with -1 and is
    not drawn, and the issued shares sum to 6. *)
Lemma seven_ones_over_issue :
  (2 <= List.length seven_ones)%nat
  /\ 0 < sum_sizes seven_ones
  /\ strip_shares 5 seven_ones = [1; 1; 1; 1; 1; 1; -1]
  /\ issued_shares 5 seven_ones = [1; 1; 1; 1; 1; 1]
  /\ map rect_width (draw_treemap record_strip seven_ones 0 0 5 4 1 1)
     = [1; 1; 1; 1; 1; 1]
  /\ sum_Z (issued_shares 5 seven_ones) <> 5.
Proof.
  repeat split; try (vm_compute; reflexivity); try (simpl; lia).
Qed.

(** The share of the first of two large files in a strip of 2349 units: the
    floating-point quotient rounds to 2195.0, one more than the floor. *)
Lemma two_large_share_rounds_up :
  strip_shares 2349 two_large = [2195; 154]
  /\ 2349 * 5105186576331 / sum_sizes two_large = 2194.
Proof. split; vm_compute; reflexivity. Qed.

Lemma strip_shares_sum_to_dimension_witness :
  (2 <= List.length sample_strip)%nat
  /\ strip_shares 100 sample_strip = [10; 10; 80]
  /\ sum_Z (strip_shares 100 sample_strip) = 100
  /\ sum_Z (issued_shares 100 sample_strip) = 100.
Proof.
  assert (H : (2 <= List.length sample_strip)%nat) by (simpl; lia).
  split; [exact H|]. split; [vm_compute; reflexivity|].
  pose proof (strip_shares_sum_to_dimension 100 sample_strip H) as T.
  cbv zeta in T. destruct T as [_ [_ [_ [Hsum Hissued]]]].
  split; [exact Hsum|]. rewrite Hissued. vm_compute. reflexivity.
Defined.

Lemma unc_target_not_same_volume_witness :
  is_reparse_point os_unc_link "E:\link" = true
  /\ read_reparse_data os_unc_link "E:\link" = Some unc_reparse_data
  /\ substitute_name unc_reparse_data = unc_target
  /\ str_in spec_marker_nt_unc unc_target = true
  /\ re_search_drive (ascii_upper unc_target) = Some "E:"
  /\ is_reparse_point_target_same_volume os_unc_link "E:\link" "E:" = false.
Proof.
  split; [reflexivity|]. split; [reflexivity|]. split; [reflexivity|].
  split; [reflexivity|]. split; [reflexivity|].
  apply (unc_target_not_same_volume os_unc_link "E:\link" unc_reparse_data);
    [reflexivity | reflexivity | left; reflexivity].
Defined.

Lemma aggregate_size_directory_sums_witness :
  exists t', aggregate_size sample_tree = Some (13, t')
     /\ size t' = 13
     /\ blank_dir_sizes t' = blank_dir_sizes sample_tree
     /\ (forall p d, entry_at p sample_tree = Some d -> is_dir d = true ->
           exists d' cs,
             entry_at p t' = Some d'
             /\ blank_dir_sizes d' = blank_dir_sizes d
             /\ children d' = Some cs
             /\ size d' = sum_sizes cs)
     /\ (forall d, In d (tree_entries t') -> is_dir d = true ->
           exists cs, children d = Some cs /\ size d = sum_sizes cs).
Proof.
  eexists. split; [vm_compute; reflexivity|].
  apply (aggregate_size_directory_sums sample_tree 13).
  vm_compute; reflexivity.
Defined.

(** C5, the claim refuted: the only child of [single_dir], laid out in
    (0,0,40,40), is placed at (2,2,38,38) and not at (0,0,40,40). *)
Lemma single_child_not_at_full_rectangle :
  0 < size only_child
  /\ layout single_dir 0 0 40 40 0 1
     = [(single_dir, 0, 0, 40, 40); (only_child, 2, 2, 38, 38)]
  /\ ~ In (only_child, 0, 0, 40, 40) (layout single_dir 0 0 40 40 0 1).
Proof.
  split; [simpl; lia|]. split; [vm_compute; reflexivity|].
  intros [H | [H | []]]; inversion H.
Qed.

Lemma single_child_placed_in_inset_witness :
  0 < size only_child /\ 0 < 1
  /\ exists rest,
       layout single_dir 0 0 40 40 0 1
       = (single_dir, 0, 0, 40, 40) :: (only_child, 2, 2, 38, 38) :: rest.
Proof.
  split; [simpl; lia|]. split; [lia|].
  apply (single_child_placed_in_inset "d" 9 only_child 0 1);
    [simpl; lia | lia].
Defined.

(** C6, the claim refuted: with the depth limit -1 the scan of [os_endless]
    returns its root, an entry at depth 0, which is greater than -1. *)
Lemma negative_max_depth_keeps_root :
  exists t, build_tree os_endless "C:\" None 0 (-1) "C:" = Some t
     /\ In t (nodes_at_depth 0 t)
     /\ ~ (Z.of_nat 0 <= -1).
Proof.
  eexists. split; [vm_compute; reflexivity|].
  split; [left; reflexivity | simpl; lia].
Qed.

Lemma build_tree_depth_bound_witness :
  exists t, build_tree os_endless "C:\" None 0 2 "C:" = Some t
     /\ nodes_at_depth 2 t <> []
     /\ forall k n, In n (nodes_at_depth k t) -> Z.of_nat k <= Z.max 0 2.
Proof.
  eexists. split; [vm_compute; reflexivity|].
  split; [vm_compute; discriminate|].
  apply (build_tree_depth_bound os_endless "C:\" 2 "C:").
  vm_compute; reflexivity.
Defined.

Lemma aggregate_size_idempotent_witness :
  exists t', aggregate_size sample_tree = Some (13, t')
             /\ aggregate_size t' = Some (13, t').
Proof.
  eexists. split; [vm_compute; reflexivity|].
  apply (aggregate_size_idempotent sample_tree 13). vm_compute; reflexivity.
Defined.

Lemma aggregate_size_frame_witness :
  exists t', aggregate_size sample_tree = Some (13, t')
    /\ subnode [1%nat; 0%nat] sample_tree = Some (mkNode "b" false None 7)
    /\ subnode [1%nat; 0%nat] t' = Some (mkNode "b" false None 7)
    /\ blank_dir_sizes t' = blank_dir_sizes sample_tree.
Proof.
  eexists. split; [vm_compute; reflexivity|].
  split; [reflexivity|].
  destruct (aggregate_size_frame sample_tree 13 _
              ltac:(vm_compute; reflexivity)) as [Hfile Hblank].
  split; [|exact Hblank].
  destruct (Hfile [1%nat; 0%nat] (mkNode "b" false None 7)
                  ltac:(reflexivity) ltac:(reflexivity))
    as [f' [Hsub [_ ->]]].
  exact Hsub.
Defined.

Lemma add_child_on_file_is_noop_witness :
  children only_child = None
  /\ add_child only_child sample_sub = only_child.
Proof.
  split; [reflexivity|].
  apply (proj1 add_child_on_file_is_noop only_child sample_sub). reflexivity.
Defined.

(** * Further properties of the code *)

(** ** Size aggregator *)

Lemma aggregate_children_file_total l :
  Forall (fun c => forall s c', aggregate_size c = Some (s, c') ->
                                s = file_total c) l ->
  forall total t l',
    aggregate_children l total = Some (t, l') ->
    t = total + sum_Z (map file_total l).
Proof.
  induction 1 as [|c l Hc _ IH]; simpl; intros total t l' H.
  - inversion H; subst. lia.
  - destruct (aggregate_size c) as [[s c']|] eqn:Ec; [|discriminate].
    destruct (aggregate_children l (total + s)) as [[t1 l1]|] eqn:E;
      [|discriminate].
    inversion H; subst. rewrite (IH _ _ _ E), (Hc _ _ eq_refl). lia.
Qed.

Lemma aggregate_size_total t :
  forall total t',
    aggregate_size t = Some (total, t') -> total = file_total t.
Proof.
  induction t as [nm d sz | nm d l sz IH] using Node_nested_ind;
    intros total t'; rewrite aggregate_size_eq; destruct d; simpl;
    try discriminate;
    try solve [intros H; inversion H; subst; reflexivity].
  destruct (aggregate_children l 0) as [[t l']|] eqn:E; [|discriminate].
  intros H; inversion H; subst; clear H.
  rewrite (aggregate_children_file_total l IH _ _ _ E). lia.
Qed.

(** X1. The value [aggregate_size] returns, which it also leaves as the
    size of the root, is the total of the sizes of the files of the tree:
    whatever sizes the directories carried before does not enter it. *)
Theorem aggregate_size_is_file_total t total t' :
  aggregate_size t = Some (total, t') ->
  total = file_total t /\ size t' = file_total t.
Proof.
  intros H. pose proof (aggregate_size_total t total t' H) as Ht.
  split; [exact Ht|].
  rewrite (aggregate_size_returns_size _ _ _ H). exact Ht.
Qed.

Lemma aggregate_size_is_file_total_witness :
  exists t', aggregate_size stale_tree = Some (13, t')
             /\ 13 = file_total stale_tree /\ size t' = file_total stale_tree.
Proof.
  eexists. split; [vm_compute; reflexivity|].
  apply (aggregate_size_is_file_total stale_tree 13). vm_compute; reflexivity.
Defined.

Lemma aggregate_children_None l :
  forall total,
    aggregate_children l total = None <->
    exists c, In c l /\ aggregate_size c = None.
Proof.
  induction l as [|c l IH]; simpl; intros total.
  - split; [discriminate | intros [c [[] _]]].
  - destruct (aggregate_size c) as [[s c']|] eqn:Ec.
    + destruct (aggregate_children l (total + s)) as [[t1 l1]|] eqn:E.
      * split; [discriminate|].
        intros [c0 [[<- | Hin] Hc0]]; [congruence|].
        assert (aggregate_children l (total + s) = None)
          by (apply IH; eauto).
        congruence.
      * split; [|reflexivity]. intros _.
        apply IH in E. destruct E as [c0 [Hin Hc0]]. eauto.
    + split; [|reflexivity]. intros _. exists c. auto.
Qed.

(** X2. [aggregate_size] fails (with Python's [TypeError], at the loop over
    [self.children]) exactly when the walk reaches a node flagged as a
    directory whose [children] is [None]; on every other tree it returns. *)
Theorem aggregate_size_fails_iff t :
  aggregate_size t = None <->
  exists d, In d (tree_entries t) /\ is_dir d = true /\ children d = None.
Proof.
  induction t as [nm d sz | nm d l sz IH] using Node_nested_ind;
    rewrite aggregate_size_eq; destruct d; simpl.
  - split; [|reflexivity]. intros _. eexists. split; [left; reflexivity|].
    split; reflexivity.
  - split; [discriminate|].
    intros [d [[<- | []] [Hd _]]]. discriminate.
  - destruct (aggregate_children l 0) as [[t l']|] eqn:E.
    + split; [discriminate|].
      intros [d [[<- | Hin] [Hd Hc]]]; [discriminate|].
      apply in_flat_map in Hin. destruct Hin as [c [Hcl Hdc]].
      rewrite Forall_forall in IH.
      assert (Hn : aggregate_size c = None) by (apply IH; eauto).
      assert (aggregate_children l 0 = None)
        by (apply aggregate_children_None; eauto).
      congruence.
    + split; [|reflexivity]. intros _.
      apply aggregate_children_None in E. destruct E as [c [Hcl Hn]].
      rewrite Forall_forall in IH. apply IH in Hn; [|exact Hcl].
      destruct Hn as [d [Hin Hd]]. exists d. split; [|exact Hd].
      right. apply in_flat_map. eauto.
  - split; [discriminate|].
    intros [d [[<- | []] [Hd _]]]. discriminate.
Qed.

Lemma aggregate_children_ext l1 :
  forall l2,
    Forall2 (fun c1 c2 => aggregate_size c1 = aggregate_size c2) l1 l2 ->
    forall total, aggregate_children l1 total = aggregate_children l2 total.
Proof.
  induction 1 as [|c1 c2 l1 l2 Hc _ IH]; simpl; intros total;
    [reflexivity|].
  rewrite Hc. destruct (aggregate_size c2) as [[s c']|]; [|reflexivity].
  rewrite IH. reflexivity.
Qed.

(** X3. The result of [aggregate_size] does not depend on the sizes the
    directories carry before the run: two trees of the entry model that
    differ only there give the same total and the same tree. *)
Theorem aggregate_size_ignores_directory_sizes t1 :
  forall t2,
    well_formed t1 ->
    blank_dir_sizes t1 = blank_dir_sizes t2 ->
    aggregate_size t1 = aggregate_size t2.
Proof.
  induction t1 as [nm d sz | nm d l sz IH] using Node_nested_ind;
    intros [nm2 d2 ch2 sz2] Hwf Hb; apply well_formed_inv in Hwf;
    destruct Hwf as [Hd Hl]; simpl in Hb; rewrite !aggregate_size_eq.
  - destruct ch2; inversion Hb; subst.
    destruct d2; simpl; [reflexivity|]. inversion Hb; subst. reflexivity.
  - destruct ch2 as [l2|]; inversion Hb; subst.
    assert (d2 = true) as -> by (apply Hd; discriminate).
    simpl. specialize (Hl l eq_refl).
    rewrite (aggregate_children_ext l l2); [reflexivity|].
    clear Hd Hb. revert l2 H2.
    induction l as [|c l IHl]; intros [|c2 l2] Hm; simpl in Hm;
      try discriminate; constructor;
      inversion Hm; inversion IH; inversion Hl; subst; auto.
Qed.

Lemma aggregate_size_ignores_directory_sizes_witness :
  well_formed sample_tree
  /\ blank_dir_sizes sample_tree = blank_dir_sizes stale_tree
  /\ aggregate_size sample_tree = aggregate_size stale_tree.
Proof.
  assert (Hwf : well_formed sample_tree).
  { unfold well_formed. simpl.
    repeat constructor; unfold children_iff_dir; simpl;
      try discriminate; try reflexivity; intros H; try discriminate;
      exfalso; apply H; reflexivity. }
  split; [exact Hwf|]. split; [reflexivity|].
  apply (aggregate_size_ignores_directory_sizes sample_tree stale_tree);
    [exact Hwf | reflexivity].
Defined.

(** ** Tree builder *)

Section BuilderMore.
Variable os : OS.

(** With a recursive call that answers, the loop either sees an entry whose
    [is_dir] raises something other than [PermissionError], and is left by
    that exception, or runs through. *)
Lemma scan_entries_outcome build vol :
  (forall p n, build p n <> None) ->
  forall entries node,
    ((exists e, In e entries /\ entry_is_dir e = inl OtherException)
     /\ scan_entries os build vol entries node = LoopRaised OtherException)
    \/ ((forall e, In e entries -> entry_is_dir e <> inl OtherException)
        /\ exists node', scan_entries os build vol entries node
                         = LoopDone node').
Proof.
  intros Hb. induction entries as [|e rest IH]; intros node; simpl.
  - right. split; [intros e []|]. eexists; reflexivity.
  - unfold scan_entry.
    destruct (entry_is_dir e) as [[|]|[|]] eqn:Ee.
    + destruct (IH node) as [[[e0 [Hin He0]] Hr] | [Hall [n' Hr]]].
      * left. split; [exists e0; auto | exact Hr].
      * right. split; [|eauto].
        intros e0 [<- | Hin]; [congruence | auto].
    + left. split; [exists e; auto | reflexivity].
    + assert (Hstep : exists n1,
                 (if (is_reparse_point os (entry_path e)
                      && negb (is_reparse_point_target_same_volume
                                 os (entry_path e) vol))%bool
                  then LoopDone node
                  else match build (entry_path e) node with
                       | Some (Some child) => LoopDone (add_child node child)
                       | Some None => LoopDone node
                       | None => LoopNoFuel
                       end) = LoopDone n1).
      { destruct (_ && _)%bool; [eauto|].
        destruct (build (entry_path e) node) as [[c|]|] eqn:Eb; eauto.
        exfalso; eapply Hb; eauto. }
      destruct Hstep as [n1 ->].
      destruct (IH n1) as [[[e0 [Hin He0]] Hr] | [Hall [n' Hr]]].
      * left. split; [exists e0; auto | exact Hr].
      * right. split; [|eauto].
        intros e0 [<- | Hin]; [congruence | auto].
    + assert (Hstep : exists n1,
                 (if match entry_st_size e with
                     | Some s => s
                     | None => 0
                     end >? 0
                  then LoopDone
                         (add_child node
                            (new_Node (entry_name e) false
                               match entry_st_size e with
                               | Some s => s
                               | None => 0
                               end))
                  else LoopDone node) = LoopDone n1).
      { destruct (_ >? 0); eauto. }
      destruct Hstep as [n1 ->].
      destruct (IH n1) as [[[e0 [Hin He0]] Hr] | [Hall [n' Hr]]].
      * left. split; [exists e0; auto | exact Hr].
      * right. split; [|eauto].
        intros e0 [<- | Hin]; [congruence | auto].
Qed.

(** X4. [build_tree] returns [None] in exactly two situations: the path is
    a reparse point that does not resolve to the volume of the scan, at any
    depth; or the node is a directory above the depth limit whose
    enumeration ends with an exception of any kind or yields an entry whose
    [is_dir] raises something other than [PermissionError].  Entries denied
    one by one, failing [stat] calls and absent sub-trees never make the
    call itself return [None]. *)
Theorem build_tree_absent_iff path parent depth max_depth vol :
  build_tree os path parent depth max_depth vol = None <->
  (is_reparse_point os path = true
   /\ is_reparse_point_target_same_volume os path vol = false)
  \/ (is_dir (fresh_node os path parent) = true
      /\ depth < max_depth
      /\ (snd (os_scandir os path) <> None
          \/ exists e, In e (fst (os_scandir os path))
                       /\ entry_is_dir e = inl OtherException)).
Proof.
  pose proof (build_tree_returns os path parent depth max_depth vol) as Hr.
  set (r := build_tree os path parent depth max_depth vol) in *.
  clearbody r.
  rewrite build_tree_fuel_eq in Hr. cbv zeta in Hr.
  destruct (is_reparse_point os path) eqn:Erp;
    destruct (is_reparse_point_target_same_volume os path vol) eqn:Esv;
    simpl in Hr.
  2:{ injection Hr as <-. split; auto. }
  all: destruct (is_dir (fresh_node os path parent)) eqn:Ed; simpl in Hr;
    try (injection Hr as <-; split; [discriminate|];
         intros [[? ?] | [? _]]; discriminate).
  all: destruct (depth <? max_depth) eqn:El;
    try (apply Z.ltb_ge in El; injection Hr as <-;
         split; [discriminate|];
         intros [[? ?] | [_ [? _]]]; [discriminate | lia]).
  all: apply Z.ltb_lt in El;
    destruct (Z.to_nat (max_depth - depth)) as [|fuel] eqn:Ef; [lia|];
    match type of Hr with
    | context [scan_entries os ?b ?v ?es ?n] =>
        destruct (scan_entries_outcome b v
                    ltac:(intros p n0; apply build_tree_fuel_enough; lia)
                    es n)
          as [[Hex Hs] | [Hall [node' Hs]]]; rewrite Hs in Hr
    end.
  all: try (injection Hr as <-; split; [|reflexivity];
            intros _; right; repeat split; auto).
  all: destruct (snd (os_scandir os path)) as [ex|] eqn:Estop;
    injection Hr as <-.
  all: try (split; [|reflexivity]; intros _; right; repeat split; auto;
            left; discriminate).
  all: split; [discriminate|];
    intros [[? ?] | [_ [_ [Hne | [e [Hin He]]]]]];
    [discriminate | congruence | exfalso; eapply Hall; eauto].
Qed.
End BuilderMore.

Section BuilderShape.
Variable os : OS.

Lemma add_child_fields n c :
  name (add_child n c) = name n
  /\ is_dir (add_child n c) = is_dir n
  /\ size (add_child n c) = size n
  /\ (List.length (children_list (add_child n c))
      <= S (List.length (children_list n)))%nat.
Proof.
  unfold add_child, children_list.
  destruct (children n) as [l|] eqn:E; simpl.
  - repeat split. rewrite length_app. simpl. lia.
  - rewrite E. repeat split. simpl. lia.
Qed.

Lemma scan_entries_shape build vol :
  forall entries node node',
    scan_entries os build vol entries node = LoopDone node' ->
    name node' = name node /\ is_dir node' = is_dir node
    /\ size node' = size node
    /\ (List.length (children_list node')
        <= List.length (children_list node) + List.length entries)%nat.
Proof.
  induction entries as [|e rest IH]; simpl; intros node node' H.
  - inversion H; subst. repeat split. lia.
  - destruct (scan_entry os build vol e node) as [n1| |] eqn:E;
      try discriminate.
    apply IH in H. destruct H as [Hn [Hd [Hs Hl]]].
    assert (Hstep : name n1 = name node /\ is_dir n1 = is_dir node
                    /\ size n1 = size node
                    /\ (List.length (children_list n1)
                        <= S (List.length (children_list node)))%nat).
    { unfold scan_entry in E.
      destruct (entry_is_dir e) as [[|]|[|]]; try discriminate.
      - inversion E; subst. repeat split. lia.
      - destruct (_ && _)%bool.
        + inversion E; subst. repeat split. lia.
        + destruct (build (entry_path e) node) as [[c|]|];
            inversion E; subst;
            [apply add_child_fields | repeat split; lia].
      - destruct (_ >? 0); inversion E; subst;
          [apply add_child_fields | repeat split; lia]. }
    destruct Hstep as [Hn1 [Hd1 [Hs1 Hl1]]].
    repeat split; try congruence. lia.
Qed.

(** The root of a scan is a directory. *)
Lemma build_tree_node_shape_dir path depth max_depth vol t :
  build_tree os path None depth max_depth vol = Some t -> is_dir t = true.
Proof.
  intros H.
  pose proof (build_tree_returns os path None depth max_depth vol) as Hr.
  rewrite H in Hr. clear H.
  rewrite build_tree_fuel_eq in Hr. cbv zeta in Hr.
  destruct (_ && negb _)%bool; [discriminate|].
  destruct (is_dir (fresh_node os path None) && (depth <? max_depth))%bool.
  - destruct (Z.to_nat (max_depth - depth)) as [|fuel]; [discriminate|].
    destruct (scan_entries _ _ _ _ _) as [node'| |] eqn:Es; try discriminate.
    destruct (snd (os_scandir os path)); [discriminate|].
    injection Hr as <-.
    apply scan_entries_shape in Es. destruct Es as [_ [Hd _]].
    rewrite Hd. reflexivity.
  - injection Hr as <-. reflexivity.
Qed.

(** X5. The node [build_tree] returns is the one it created for the path:
    for the root of a scan a directory named after the drive, below it a
    node named after the last path segment; its size is 0 until the
    aggregation runs; it has at most one child per entry that [os.scandir]
    yielded, and none at all at or beyond the depth limit. *)
Theorem build_tree_node_shape path parent depth max_depth vol t :
  build_tree os path parent depth max_depth vol = Some t ->
  name t = name (fresh_node os path parent)
  /\ is_dir t = is_dir (fresh_node os path parent)
  /\ (parent = None -> is_dir t = true)
  /\ size t = 0
  /\ (List.length (children_list t)
      <= List.length (fst (os_scandir os path)))%nat
  /\ (max_depth <= depth -> children_list t = []).
Proof.
  intros H.
  pose proof (build_tree_returns os path parent depth max_depth vol) as Hr.
  rewrite H in Hr. clear H.
  rewrite build_tree_fuel_eq in Hr. cbv zeta in Hr.
  assert (Hroot : parent = None -> is_dir (fresh_node os path parent) = true).
  { intros ->. reflexivity. }
  assert (Hsz : size (fresh_node os path parent) = 0).
  { destruct parent; reflexivity. }
  destruct (_ && negb _)%bool; [discriminate|].
  destruct (is_dir (fresh_node os path parent) && (depth <? max_depth))%bool
    eqn:Et.
  - apply andb_prop in Et. destruct Et as [_ Et]. apply Z.ltb_lt in Et.
    destruct (Z.to_nat (max_depth - depth)) as [|fuel]; [discriminate|].
    destruct (scan_entries _ _ _ _ _) as [node'| |] eqn:Es; try discriminate.
    destruct (snd (os_scandir os path)); [discriminate|].
    injection Hr as <-.
    apply scan_entries_shape in Es. destruct Es as [Hn [Hd [Hs Hl]]].
    rewrite fresh_node_children in Hl. simpl in Hl.
    repeat split; try congruence; try lia.
    intros Hp. rewrite Hd. auto.
  - injection Hr as <-. rewrite fresh_node_children.
    repeat split; auto. simpl. lia.
Qed.

End BuilderShape.

Lemma build_tree_node_shape_witness :
  exists t, build_tree os_endless "C:\" None 0 2 "C:" = Some t
    /\ name t = "C:" /\ is_dir t = true /\ size t = 0
    /\ (List.length (children_list t) <= 2)%nat.
Proof.
  eexists. split; [vm_compute; reflexivity|].
  destruct (build_tree_node_shape os_endless "C:\" None 0 2 "C:" _
              ltac:(vm_compute; reflexivity))
    as [Hn [_ [Hd [Hs [Hl _]]]]].
  split; [exact Hn|]. split; [exact (Hd eq_refl)|].
  split; [exact Hs | exact Hl].
Defined.

Section BuilderSizes.
Variable os : OS.

Lemma scan_entries_invariant_in (I P : Node -> Prop) build vol :
  (forall n c, I n -> P c -> I (add_child n c)) ->
  (forall nm sz, 0 < sz -> P (new_Node nm false sz)) ->
  forall entries node node',
    (forall e n c, In e entries -> entry_is_dir e = inr true ->
                   build (entry_path e) n = Some (Some c) -> P c) ->
    I node ->
    scan_entries os build vol entries node = LoopDone node' ->
    I node'.
Proof.
  intros Hadd Hfile.
  induction entries as [|e rest IH]; simpl; intros node node' Hbuild HI H.
  - inversion H; subst; exact HI.
  - destruct (scan_entry os build vol e node) as [n1| |] eqn:E;
      try discriminate.
    apply (IH n1 node'); [intros; eapply Hbuild; eauto | | exact H].
    unfold scan_entry in E.
    destruct (entry_is_dir e) as [[|]|[|]] eqn:Ee.
    + inversion E; subst; exact HI.
    + discriminate.
    + destruct (_ && _)%bool.
      * inversion E; subst; exact HI.
      * destruct (build (entry_path e) node) as [[c|]|] eqn:Eb;
          inversion E; subst; eauto.
    + destruct (_ >? 0) eqn:Es; inversion E; subst; [|exact HI].
      apply Hadd; [exact HI|]. apply Hfile. apply Z.gtb_lt in Es. lia.
Qed.

Lemma nodes_children_list n :
  nodes n = n :: flat_map nodes (children_list n).
Proof.
  destruct n as [nm d [l|] sz]; reflexivity.
Qed.

Lemma build_tree_fuel_sizes fuel :
  isdir_consistent os ->
  forall path parent depth max_depth vol t,
    build_tree_fuel os fuel path parent depth max_depth vol = Some (Some t) ->
    is_dir (fresh_node os path parent) = true ->
    Forall built_sizes (nodes t).
Proof.
  intros Hcons.
  assert (Hfresh : forall path parent,
             is_dir (fresh_node os path parent) = true ->
             Forall built_sizes (nodes (fresh_node os path parent))).
  { intros path parent Hd. rewrite nodes_children_list.
    rewrite fresh_node_children. simpl. constructor; [|constructor].
    unfold built_sizes. rewrite Hd. destruct parent; reflexivity. }
  induction fuel as [|fuel IH]; intros path parent depth max_depth vol t;
    rewrite build_tree_fuel_eq; cbv zeta;
    destruct (_ && negb _)%bool; try discriminate;
    destruct (is_dir _ && (depth <? max_depth))%bool eqn:Et;
    try discriminate;
    try (intros H Hd; inversion H; subst; apply Hfresh; exact Hd).
  destruct (scan_entries _ _ _ _ _) as [node'| |] eqn:Es; try discriminate.
  destruct (snd (os_scandir os path)); [discriminate|].
  intros H Hd; inversion H; subst; clear H.
  assert (HI : is_dir t = true /\ size t = 0
               /\ Forall (fun c => Forall built_sizes (nodes c))
                         (children_list t)).
  { revert Es.
    apply (scan_entries_invariant_in
             (fun n => is_dir n = true /\ size n = 0
                       /\ Forall (fun c => Forall built_sizes (nodes c))
                                 (children_list n))
             (fun c => Forall built_sizes (nodes c))).
    - intros n c [Hn1 [Hn2 Hn3]] Hc.
      destruct (add_child_fields n c) as [_ [Hd' [Hs' _]]].
      split; [congruence|]. split; [congruence|].
      destruct (children_list_add_child n c) as [-> | ->]; [exact Hn3|].
      apply Forall_app. split; [exact Hn3 | constructor; [exact Hc|constructor]].
    - intros nm sz Hsz. simpl. constructor; [|constructor].
      unfold built_sizes. simpl. split; [exact Hsz | reflexivity].
    - intros e n c Hin He Hb. apply IH in Hb; [exact Hb|].
      simpl. apply (Hcons path e Hin He).
    - split; [exact Hd|]. split; [destruct parent; reflexivity|].
      rewrite fresh_node_children. constructor. }
  destruct HI as [Ht1 [Ht2 Ht3]].
  rewrite nodes_children_list. constructor.
  - unfold built_sizes. rewrite Ht1. exact Ht2.
  - apply Forall_flat_map. exact Ht3.
Qed.

(** X6. When [os.path.isdir] agrees with [os.scandir] on the directories,
    every node of the tree a scan builds is either a directory, which
    carries size 0 until the aggregation runs, or a file of positive size
    without a list of children: no file of size 0 is in the tree. *)
Theorem build_tree_sizes path depth max_depth vol t :
  isdir_consistent os ->
  build_tree os path None depth max_depth vol = Some t ->
  forall n, In n (nodes t) ->
    (is_dir n = true -> size n = 0)
    /\ (is_dir n = false -> 0 < size n /\ children n = None).
Proof.
  intros Hcons H n Hin.
  pose proof (build_tree_returns os path None depth max_depth vol) as Hr.
  rewrite H in Hr.
  apply (build_tree_fuel_sizes _ Hcons) in Hr; [|reflexivity].
  rewrite Forall_forall in Hr. specialize (Hr n Hin).
  unfold built_sizes in Hr.
  destruct (is_dir n); split; intros; try discriminate; assumption.
Qed.
End BuilderSizes.

Lemma build_tree_sizes_witness :
  isdir_consistent os_endless
  /\ exists t, build_tree os_endless "C:\" None 0 2 "C:" = Some t
     /\ forall n, In n (nodes t) ->
          (is_dir n = true -> size n = 0)
          /\ (is_dir n = false -> 0 < size n /\ children n = None).
Proof.
  assert (Hc : isdir_consistent os_endless) by (intros p e _ _; reflexivity).
  split; [exact Hc|].
  eexists. split; [vm_compute; reflexivity|].
  apply (build_tree_sizes os_endless "C:\" 0 2 "C:" _ Hc).
  vm_compute; reflexivity.
Defined.

(** The agreement is needed: a directory entry that [os.path.isdir] does
    not take for a directory is added as a file of size 0. *)
Lemma refused_directory_is_zero_size_file :
  build_tree os_isdir_refused "C:\" None 0 3 "C:"
  = Some (mkNode "C:" true (Some [mkNode "j" false None 0]) 0).
Proof. vm_compute. reflexivity. Qed.

(** ** The scan *)

Lemma nodes_at_depth_blank k :
  forall t,
    nodes_at_depth k (blank_dir_sizes t)
    = map blank_dir_sizes (nodes_at_depth k t).
Proof.
  induction k as [|k IH]; intros [nm d ch sz]; simpl; [reflexivity|].
  destruct ch as [l|]; [|reflexivity].
  induction l as [|c l IHl]; simpl; [reflexivity|].
  rewrite map_app, IH, IHl. reflexivity.
Qed.

(** Aggregation does not move a node to another level. *)
Lemma aggregate_size_within b t total t' :
  aggregate_size t = Some (total, t') -> within b t -> within b t'.
Proof.
  intros H Hw k n Hin.
  apply aggregate_size_blank in H.
  apply (in_map blank_dir_sizes) in Hin.
  rewrite <- nodes_at_depth_blank, H, nodes_at_depth_blank in Hin.
  apply in_map_iff in Hin. destruct Hin as [n0 [_ Hin0]].
  exact (Hw k n0 Hin0).
Qed.

(** X7. [scan_worker] always ends in [scan_complete], never in
    [scan_error]: [build_tree] raises nothing and the tree it returns can
    always be aggregated.  When a tree is handed over, its root is a
    directory, children are present exactly for directories, the size of
    every directory is the sum of its children's sizes, the size of the
    root is the total of the file sizes, and no node lies more than 100
    levels below the root. *)
Theorem scan_worker_completes os drive depth :
  exists r,
    scan_worker os drive depth = scan_complete r
    /\ forall t, r = Some t ->
         is_dir t = true
         /\ well_formed t
         /\ size t = file_total t
         /\ (forall d, In d (nodes t) -> is_dir d = true ->
               exists cs, children d = Some cs /\ size d = sum_sizes cs)
         /\ within 100 t.
Proof.
  unfold scan_worker. cbv zeta.
  destruct (build_tree os (drive ++ ":\") None 0 100 (drive ++ ":"))
    as [t0|] eqn:Eb.
  2:{ exists None. split; [reflexivity|]. intros t Ht. discriminate. }
  pose proof (build_tree_well_formed os _ _ _ _ _ _ Eb) as Hwf0.
  destruct (aggregate_size_complete t0 Hwf0) as [[total t'] Ea].
  rewrite Ea. exists (Some t'). split; [reflexivity|].
  intros t Ht. injection Ht as <-.
  pose proof (aggregate_size_well_formed _ _ _ Ea Hwf0) as Hwf.
  pose proof (build_tree_returns os (drive ++ ":\") None 0 100 (drive ++ ":"))
    as Hr.
  rewrite Eb in Hr.
  split.
  { pose proof (aggregate_size_blank _ _ _ Ea) as Hb.
    pose proof (build_tree_node_shape_dir os _ _ _ _ _ Eb) as Hd.
    destruct t0 as [n0 d0 c0 s0], t' as [n1 d1 c1 s1].
    simpl in *. inversion Hb; subst. reflexivity. }
  split; [exact Hwf|].
  split.
  { pose proof (aggregate_size_fixed _ _ _ Ea) as Hfix.
    rewrite (aggregate_size_returns_size _ _ _ Ea).
    exact (aggregate_size_total _ _ _ Hfix). }
  split.
  { intros d Hin Hd.
    pose proof (aggregate_size_sums _ _ _ Ea) as Hs.
    rewrite (well_formed_entries _ Hwf) in Hs.
    rewrite Forall_forall in Hs. exact (Hs d Hin Hd). }
  apply build_tree_fuel_within in Hr.
  apply (aggregate_size_within _ _ _ _ Ea).
  replace 100 with (Z.max 0 (100 - 0)) by reflexivity. exact Hr.
Qed.

(** ** Treemap layout *)

(** *** The order of the children *)

Lemma insert_desc_perm x l : Permutation (x :: l) (insert_desc x l).
Proof.
  induction l as [|y l IH]; simpl; [reflexivity|].
  destruct (size x <? size y); [|reflexivity].
  rewrite perm_swap. constructor. exact IH.
Qed.

Lemma sorted_desc_perm l : Permutation l (sorted_desc l).
Proof.
  induction l as [|x l IH]; simpl; [constructor|].
  rewrite <- insert_desc_perm. constructor. exact IH.
Qed.

Lemma insert_desc_sorted x l :
  StronglySorted size_ge l -> StronglySorted size_ge (insert_desc x l).
Proof.
  induction 1 as [|y l Hs IH Hy]; simpl.
  - repeat constructor.
  - destruct (size x <? size y) eqn:E.
    + apply Z.ltb_lt in E. constructor; [exact IH|].
      apply Forall_forall. intros z Hz.
      apply (Permutation_in _ (Permutation_sym (insert_desc_perm x l))) in Hz.
      destruct Hz as [<- | Hz]; [unfold size_ge; lia|].
      rewrite Forall_forall in Hy. auto.
    + apply Z.ltb_ge in E. constructor; [constructor; assumption|].
      constructor; [unfold size_ge; lia|].
      eapply Forall_impl; [|exact Hy]. unfold size_ge. intros; lia.
Qed.

Lemma sorted_desc_sorted l : StronglySorted size_ge (sorted_desc l).
Proof.
  induction l as [|x l IH]; simpl; [constructor|].
  apply insert_desc_sorted. exact IH.
Qed.

Lemma insert_desc_filter v x l :
  filter (fun n => size n =? v) (insert_desc x l)
  = filter (fun n => size n =? v) (x :: l).
Proof.
  induction l as [|y l IH]; [reflexivity|].
  simpl insert_desc. destruct (size x <? size y) eqn:E; [|reflexivity].
  apply Z.ltb_lt in E. simpl in *. rewrite IH.
  destruct (size x =? v) eqn:Ex; [|reflexivity].
  apply Z.eqb_eq in Ex.
  replace (size y =? v) with false by (symmetry; apply Z.eqb_neq; lia).
  reflexivity.
Qed.

(** X8. The children a directory hands to the strip-split are its children
    of positive size and no others, each as often as it occurs, in
    descending order of size; children of equal size keep the order in
    which they were enumerated. *)
Theorem children_laid_out_largest_first l :
  let children := sorted_desc (filter (fun ch => size ch >? 0) l) in
  Permutation (filter (fun ch => size ch >? 0) l) children
  /\ StronglySorted (fun a b => size b <= size a) children
  /\ forall v, filter (fun n => size n =? v) children
               = filter (fun n => size n =? v)
                        (filter (fun ch => size ch >? 0) l).
Proof.
  cbv zeta. split; [apply sorted_desc_perm|].
  split; [apply sorted_desc_sorted|].
  intros v. induction (filter (fun ch => size ch >? 0) l) as [|x l0 IH];
    [reflexivity|].
  simpl sorted_desc. rewrite insert_desc_filter. simpl. rewrite IH.
  reflexivity.
Qed.

(** *** The strips *)

Lemma strip_split_tiles dimension total_size nodes :
  nodes <> [] ->
  forall current remaining,
    tiles current (current + remaining)
          (strip_split dimension total_size nodes current remaining).
Proof.
  induction nodes as [|n rest IH]; intros Hne current remaining;
    [contradiction|].
  destruct rest as [|n2 rest].
  - simpl. split; reflexivity.
  - change (strip_split dimension total_size (n :: n2 :: rest)
                        current remaining)
      with (let w := Z.max 1 (int_truediv (dimension * size n) total_size) in
            (n, current, w)
              :: strip_split dimension total_size (n2 :: rest)
                   (if w >? 0 then current + w else current)
                   (remaining - w)).
    cbv zeta. set (w := Z.max 1 _).
    replace (w >? 0) with true by (symmetry; apply Z.gtb_lt; lia).
    simpl tiles. split; [reflexivity|].
    replace (current + remaining) with (current + w + (remaining - w)) by lia.
    apply IH. discriminate.
Qed.

Lemma strip_split_nodes dimension total_size nodes :
  forall current remaining,
    map (fun it => fst (fst it))
        (strip_split dimension total_size nodes current remaining)
    = nodes.
Proof.
  induction nodes as [|n rest IH]; intros current remaining; [reflexivity|].
  destruct rest as [|n2 rest]; [reflexivity|].
  change (strip_split dimension total_size (n :: n2 :: rest)
                      current remaining)
    with (let w := Z.max 1 (int_truediv (dimension * size n) total_size) in
          (n, current, w)
            :: strip_split dimension total_size (n2 :: rest)
                 (if w >? 0 then current + w else current)
                 (remaining - w)).
  cbv zeta. rewrite map_cons. rewrite IH. reflexivity.
Qed.

Lemma sum_sizes_cons n l : sum_sizes (n :: l) = size n + sum_sizes l.
Proof. reflexivity. Qed.

Lemma sum_sizes_pos l :
  Forall (fun n => 0 < size n) l -> 0 <= sum_sizes l.
Proof.
  induction 1 as [|n l Hn _ IH]; [simpl; lia|].
  rewrite sum_sizes_cons. lia.
Qed.

Lemma flat_map_issued {B : Type} (f : Node -> Z -> Z -> list B) strips :
  flat_map (fun '(node, current, share) =>
              if share >? 0 then f node current share else []) strips
  = flat_map (fun '(node, current, share) => f node current share)
             (filter (fun it => snd it >? 0) strips).
Proof.
  induction strips as [|[[n c] w] strips IH]; [reflexivity|].
  cbn [flat_map filter snd]. destruct (w >? 0); cbn [flat_map];
    rewrite IH; reflexivity.
Qed.

(** The strips handed on follow one another from the current position; they
    stop at the far edge, or beyond it by what the last share lacks. *)
Lemma issued_strips_tile dimension total_size nodes :
  nodes <> [] ->
  forall current remaining,
    let strips := strip_split dimension total_size nodes current remaining in
    let issued := filter (fun it => snd it >? 0) strips in
    let last_share := last (map (fun it => snd it) strips) 0 in
    tiles current (current + remaining - Z.min 0 last_share) issued
    /\ Forall (fun it => 1 <= snd it) issued
    /\ map (fun it => fst (fst it)) issued
       = (if last_share >? 0 then nodes else removelast nodes).
Proof.
  induction nodes as [|n rest IH]; intros Hne current remaining;
    [contradiction|].
  destruct rest as [|n2 rest].
  - cbv zeta. cbn [strip_split map last filter snd].
    destruct (remaining >? 0) eqn:E.
    + apply Z.gtb_lt in E. cbn [tiles map fst].
      split; [split; [reflexivity | lia]|].
      split; [constructor; [simpl; lia | constructor] | reflexivity].
    + rewrite Z.gtb_ltb in E. apply Z.ltb_ge in E. cbn [tiles map].
      split; [lia|]. split; [constructor | reflexivity].
  - change (strip_split dimension total_size (n :: n2 :: rest)
                        current remaining)
      with (let w := Z.max 1 (int_truediv (dimension * size n) total_size) in
            (n, current, w)
              :: strip_split dimension total_size (n2 :: rest)
                   (if w >? 0 then current + w else current)
                   (remaining - w)).
    cbv zeta. set (w := Z.max 1 _).
    assert (Hw : (w >? 0) = true) by (apply Z.gtb_lt; unfold w; lia).
    rewrite Hw.
    specialize (IH ltac:(discriminate) (current + w) (remaining - w)).
    cbv zeta in IH.
    set (strips := strip_split dimension total_size (n2 :: rest)
                               (current + w) (remaining - w)) in *.
    assert (Hs : map (fun it => snd it) strips <> []).
    { unfold strips. rewrite strip_split_shares by discriminate.
      cbv zeta. intros H. apply app_eq_nil in H. destruct H; discriminate. }
    cbn [filter snd map]. rewrite Hw.
    replace (last (w :: map (fun it => snd it) strips) 0)
      with (last (map (fun it => snd it) strips) 0)
      by (destruct (map (fun it => snd it) strips);
          [contradiction | reflexivity]).
    destruct IH as [Ht [Hf Hm]].
    split; [|split].
    + cbn [tiles]. split; [reflexivity|].
      replace (current + remaining
               - Z.min 0 (last (map (fun it => snd it) strips) 0))
        with (current + w + (remaining - w)
              - Z.min 0 (last (map (fun it => snd it) strips) 0)) by lia.
      exact Ht.
    + constructor; [simpl; unfold w; lia | exact Hf].
    + cbn [map fst]. rewrite Hm.
      destruct (last (map (fun it => snd it) strips) 0 >? 0); reflexivity.
Qed.

(** X9. One split hands on strips that lie side by side along the longer
    side of the rectangle (the width when it is the greater, the height
    otherwise): the first begins at the near edge, each next one where the
    one before ended, and each is at least 1 thick.  There is one strip
    per child, in the order of the children, when the share left for the
    last child is positive, and the strips then end at the far edge.
    Otherwise the last child gets no strip, and the strips of the others
    end at the far edge when that share is 0 and beyond it, by what the
    share lacks, when it is negative. *)
Theorem strips_side_by_side
    (draw : Node -> Z -> Z -> Z -> Z -> Z -> Z -> list Placement)
    nodes x y width height level max_draw_depth :
  (2 <= List.length nodes)%nat ->
  Forall (fun n => 0 < size n) nodes ->
  4 <= width < 2 ^ 53 -> 4 <= height < 2 ^ 53 ->
  let vertical_split := width >? height in
  let dimension := if vertical_split then width else height in
  let start := if vertical_split then x else y in
  let issued := issued_strips dimension nodes start in
  let last_share := last (strip_shares dimension nodes) 0 in
  draw_treemap draw nodes x y width height level max_draw_depth
  = flat_map (fun '(node, current, share) =>
                if vertical_split
                then draw node current y share height level max_draw_depth
                else draw node x current width share level max_draw_depth)
             issued
  /\ tiles start (start + dimension - Z.min 0 last_share) issued
  /\ Forall (fun it => 1 <= snd it) issued
  /\ map (fun it => fst (fst it)) issued
     = (if last_share >? 0 then nodes else removelast nodes).
Proof.
  intros Hlen Hpos [Hw _] [Hh _]. cbv zeta.
  assert (Hne : nodes <> []) by (destruct nodes; [simpl in Hlen; lia | discriminate]).
  split.
  - unfold draw_treemap.
    destruct nodes as [|n0 [|n1 rest]]; try (simpl in Hlen; lia).
    replace ((width <? 4) || (height <? 4))%bool with false
      by (symmetry; apply orb_false_intro; apply Z.ltb_ge; lia).
    assert (Htot : 0 < sum_sizes (n0 :: n1 :: rest)).
    { inversion Hpos as [|? ? H0 Hpos']; subst.
      pose proof (sum_sizes_pos _ Hpos'). rewrite sum_sizes_cons. lia. }
    replace (sum_sizes (n0 :: n1 :: rest) =? 0) with false
      by (symmetry; apply Z.eqb_neq; lia).
    cbv zeta. unfold issued_strips.
    destruct (width >? height); apply flat_map_issued.
  - unfold issued_strips, strip_shares.
    set (dimension := if width >? height then width else height).
    set (start := if width >? height then x else y).
    pose proof (issued_strips_tile dimension (sum_sizes nodes) nodes Hne
                                   start dimension) as H.
    cbv zeta in H.
    rewrite (strip_split_shares dimension (sum_sizes nodes) nodes Hne
                                start dimension) in H.
    rewrite (strip_split_shares dimension (sum_sizes nodes) nodes Hne
                                0 dimension).
    exact H.
Qed.

Lemma strips_side_by_side_witness :
  (2 <= List.length seven_ones)%nat
  /\ Forall (fun n => 0 < size n) seven_ones
  /\ 4 <= 5 < 2 ^ 53 /\ 4 <= 4 < 2 ^ 53
  /\ last (strip_shares 5 seven_ones) 0 = -1
  /\ List.length (issued_strips 5 seven_ones 0) = 6%nat
  /\ tiles 0 6 (issued_strips 5 seven_ones 0)
  /\ map (fun it => fst (fst it)) (issued_strips 5 seven_ones 0)
     = removelast seven_ones.
Proof.
  assert (Hl : (2 <= List.length seven_ones)%nat) by (simpl; lia).
  assert (Hp : Forall (fun n => 0 < size n) seven_ones)
    by (repeat constructor).
  assert (Hw : 4 <= 5 < 2 ^ 53) by (split; [lia | reflexivity]).
  assert (Hh : 4 <= 4 < 2 ^ 53) by (split; [lia | reflexivity]).
  split; [exact Hl|]. split; [exact Hp|]. split; [exact Hw|].
  split; [exact Hh|]. split; [vm_compute; reflexivity|].
  split; [vm_compute; reflexivity|].
  destruct (strips_side_by_side record_strip seven_ones 0 0 5 4 1 1
                                Hl Hp Hw Hh) as [_ [Ht [_ Hm]]].
  split; [exact Ht | exact Hm].
Defined.

(** *** Containment *)

(** *** Bounds on [int(a / b)] *)

(** Below [2^53] the result is a truncated significand: some [m] within
    half a unit of [a * 2^s / b], shifted back by [s] bits. *)
Lemma int_truediv_pos_significand a b :
  0 < a -> 0 < b -> a < b * 2 ^ 53 ->
  exists s m,
    0 <= s /\ int_truediv_pos a b = m / 2 ^ s
    /\ a * 2 ^ s / b <= m
    /\ 2 * m * b <= 2 * (a * 2 ^ s) + b
    /\ b * 2 ^ 52 <= a * 2 ^ s.
Proof.
  intros Ha Hb Hlt. unfold int_truediv_pos.
  pose proof (quotient_exponent_lower a b Ha Hb) as He. cbv zeta in He.
  set (e := quotient_exponent a b) in *.
  destruct (0 <=? 52 - e) eqn:Es.
  - apply Z.leb_le in Es. set (s := 52 - e) in *.
    exists s, (round_half_even (a * 2 ^ s) b).
    assert (Hp : 0 < 2 ^ s) by (apply Z.pow_pos_nonneg; lia).
    split; [exact Es|]. split; [reflexivity|].
    pose proof (Z.div_mod (a * 2 ^ s) b ltac:(lia)) as Hdm.
    pose proof (Z.mod_pos_bound (a * 2 ^ s) b Hb) as Hrb.
    split; [destruct (round_half_even_cases (a * 2 ^ s) b)
              as [-> | [-> _]]; lia|].
    split.
    + destruct (round_half_even_cases (a * 2 ^ s) b) as [-> | [-> Hr]]; nia.
    + destruct (Z_le_gt_dec 0 e).
      * replace (Z.max 0 e) with e in He by lia.
        replace (Z.max 0 (- e)) with 0 in He by lia.
        rewrite Z.pow_0_r, Z.mul_1_r in He.
        replace (2 ^ 52) with (2 ^ e * 2 ^ s)
          by (rewrite <- Z.pow_add_r by lia; f_equal; unfold s; lia).
        nia.
      * replace (Z.max 0 e) with 0 in He by lia.
        replace (Z.max 0 (- e)) with (- e) in He by lia.
        rewrite Z.pow_0_r, Z.mul_1_r in He.
        replace (2 ^ s) with (2 ^ (- e) * 2 ^ 52)
          by (rewrite <- Z.pow_add_r by lia; f_equal; unfold s; lia).
        nia.
  - exfalso. apply Z.leb_gt in Es.
    replace (Z.max 0 e) with e in He by lia.
    replace (Z.max 0 (- e)) with 0 in He by lia.
    rewrite Z.pow_0_r, Z.mul_1_r in He.
    assert (2 ^ 53 <= 2 ^ e) by (apply Z.pow_le_mono_r; lia).
    nia.
Qed.

(** [int(a / b)] is not negative, is at least 1 from [a = b] on, and
    exceeds the exact quotient by less than one part in [2^53]. *)
Lemma int_truediv_bounds a b :
  0 <= a -> 0 < b -> a < b * 2 ^ 53 ->
  0 <= int_truediv a b
  /\ (b <= a -> 1 <= int_truediv a b)
  /\ int_truediv a b * b * 2 ^ 53 <= a * (2 ^ 53 + 1).
Proof.
  intros Ha Hb Hlt. unfold int_truediv.
  destruct (a =? 0) eqn:E.
  - apply Z.eqb_eq in E. subst. repeat split; lia.
  - apply Z.eqb_neq in E.
    rewrite (Z.sgn_pos a), (Z.sgn_pos b), (Z.abs_eq a), (Z.abs_eq b) by lia.
    destruct (int_truediv_pos_significand a b) as [s [m [Hs [-> [Hq [Hr Hl]]]]]];
      try lia.
    assert (Hp : 0 < 2 ^ s) by (apply Z.pow_pos_nonneg; lia).
    assert (Hq0 : 0 <= a * 2 ^ s / b) by (apply Z.div_pos; nia).
    replace (1 * 1 * (m / 2 ^ s)) with (m / 2 ^ s) by lia.
    pose proof (Z.mul_div_le m (2 ^ s) Hp) as Hk.
    split; [apply Z.div_pos; lia|].
    split.
    + intros Hba. apply Z.div_le_lower_bound; [lia|].
      assert (2 ^ s <= a * 2 ^ s / b)
        by (apply Z.div_le_lower_bound; nia).
      lia.
    + assert (H53 : 2 ^ 53 = 2 * 2 ^ 52) by reflexivity.
      assert (Hm : m * b * 2 ^ 53 <= a * 2 ^ s * (2 ^ 53 + 1)) by nia.
      assert (Hkm : 2 ^ s * (m / 2 ^ s) * b * 2 ^ 53
                    <= a * 2 ^ s * (2 ^ 53 + 1)).
      { assert (0 <= b * 2 ^ 53) by nia. nia. }
      apply Z.mul_le_mono_pos_l with (p := 2 ^ s); [lia|]. nia.
Qed.

(** A strip that is wide enough to be drawn lies within the rectangle being
    split, when the children come largest first. *)
Lemma strip_split_inside dimension total_size x nodes :
  0 <= dimension < 2 ^ 53 -> 0 < total_size ->
  forall current remaining,
    StronglySorted size_ge nodes ->
    Forall (fun n => 0 < size n) nodes ->
    current + remaining = x + dimension -> x <= current ->
    ((exists A, 0 <= A /\ A + sum_sizes nodes <= total_size
                /\ (current - x) * total_size * 2 ^ 53
                   <= (2 ^ 53 + 1) * dimension * A)
     \/ (forall n, In n nodes -> dimension * size n < total_size)) ->
    forall n c s,
      In (n, c, s)
         (strip_split dimension total_size nodes current remaining) ->
      2 <= s -> x <= c /\ c + s <= x + dimension.
Proof.
  intros Hd HT.
  induction nodes as [|n0 rest IH];
    intros current remaining Hsort Hpos Hsum Hx Hstate n c s Hin Hs;
    [destruct Hin|].
  destruct rest as [|n2 rest].
  - simpl in Hin. destruct Hin as [Heq | []]. inversion Heq; subst. lia.
  - change (strip_split dimension total_size (n0 :: n2 :: rest)
                        current remaining)
      with (let w := Z.max 1 (int_truediv (dimension * size n0) total_size) in
            (n0, current, w)
              :: strip_split dimension total_size (n2 :: rest)
                   (if w >? 0 then current + w else current)
                   (remaining - w)) in Hin.
    cbv zeta in Hin.
    set (k := int_truediv (dimension * size n0) total_size) in *.
    set (w := Z.max 1 k) in *.
    replace (w >? 0) with true in Hin
      by (symmetry; apply Z.gtb_lt; unfold w; lia).
    inversion Hsort as [|? ? Hsort' Hge]; subst.
    inversion Hpos as [|? ? Hp0 Hpos']; subst.
    inversion Hpos' as [|? ? Hp2 Hpos'']; subst.
    pose proof (sum_sizes_pos rest Hpos'') as Hrest.
    assert (Hrange : dimension * size n0 < total_size * 2 ^ 53).
    { destruct Hstate as [[A [HA [HAT _]]] | Hdirty].
      - rewrite !sum_sizes_cons in HAT.
        assert (dimension * size n0 <= dimension * total_size) by nia.
        nia.
      - specialize (Hdirty n0 (or_introl eq_refl)).
        assert (total_size <= total_size * 2 ^ 53) by nia. lia. }
    destruct (int_truediv_bounds (dimension * size n0) total_size)
      as [Hk0 [Hk1 HkR]]; [nia | lia | exact Hrange|].
    fold k in Hk0, Hk1, HkR.
    assert (H53 : 0 < 2 ^ 53) by reflexivity.
    (* the state after this child *)
    assert (Hnext :
              (1 <= k /\ exists A, 0 <= A
                 /\ A + sum_sizes (n2 :: rest) <= total_size
                 /\ (current + w - x) * total_size * 2 ^ 53
                    <= (2 ^ 53 + 1) * dimension * A)
              \/ (k <= 1
                  /\ forall n', In n' (n2 :: rest) ->
                                dimension * size n' < total_size)).
    { destruct Hstate as [[A [HA [HAT HAK]]] | Hdirty].
      - destruct (Z_le_gt_dec 1 k) as [Hk | Hk].
        + left. split; [exact Hk|]. exists (A + size n0).
          rewrite sum_sizes_cons in HAT.
          split; [lia|]. split; [lia|].
          replace w with k by (unfold w; lia).
          replace ((current + k - x) * total_size * 2 ^ 53)
            with ((current - x) * total_size * 2 ^ 53
                  + k * total_size * 2 ^ 53) by ring.
          replace ((2 ^ 53 + 1) * dimension * (A + size n0))
            with ((2 ^ 53 + 1) * dimension * A
                  + dimension * size n0 * (2 ^ 53 + 1)) by ring.
          lia.
        + right. split; [lia|].
          assert (Hlt : dimension * size n0 < total_size).
          { destruct (Z_lt_ge_dec (dimension * size n0) total_size);
              [assumption|]. assert (1 <= k) by (apply Hk1; lia). lia. }
          intros n' Hn'. rewrite Forall_forall in Hge.
          specialize (Hge n' Hn'). unfold size_ge in Hge. nia.
      - right. split.
        + specialize (Hdirty n0 (or_introl eq_refl)).
          assert (k * total_size * 2 ^ 53 < total_size * (2 ^ 53 + 1)) by nia.
          assert (k * 2 ^ 53 < 2 ^ 53 + 1) by nia.
          lia.
        + intros n' Hn'. apply Hdirty. right. exact Hn'. }
    destruct Hin as [Heq | Hin].
    + inversion Heq; subst c s n. split; [exact Hx|].
      destruct Hnext as [[Hk [A [HA [HAT HAK]]]] | [Hk _]];
        [|unfold w in Hs; lia].
      rewrite sum_sizes_cons in HAT.
      assert (HA1 : A <= total_size - 1) by lia.
      destruct (Z_le_gt_dec (current + w - x) dimension) as [|Hbig]; [lia|].
      exfalso.
      assert (H1 : (dimension + 1) * total_size * 2 ^ 53
                   <= (current + w - x) * total_size * 2 ^ 53) by nia.
      assert (H2 : (2 ^ 53 + 1) * dimension * A
                   <= (2 ^ 53 + 1) * dimension * (total_size - 1)) by nia.
      assert (H3 : dimension * total_size < 2 ^ 53 * total_size) by nia.
      nia.
    + assert (Hstate' :
                (exists A, 0 <= A
                   /\ A + sum_sizes (n2 :: rest) <= total_size
                   /\ (current + w - x) * total_size * 2 ^ 53
                      <= (2 ^ 53 + 1) * dimension * A)
                \/ (forall n', In n' (n2 :: rest) ->
                                dimension * size n' < total_size)).
      { destruct Hnext as [[_ Hclean] | [_ Hdirty]];
          [left | right]; assumption. }
      apply (IH (current + w) (remaining - w) Hsort' Hpos'
                ltac:(lia) ltac:(unfold w; lia) Hstate' n c s Hin Hs).
Qed.

Lemma inside_weaken x y w h x' y' w' h' p :
  x <= x' -> x' + w' <= x + w -> y <= y' -> y' + h' <= y + h ->
  inside x' y' w' h' p -> inside x y w h p.
Proof.
  destruct p as [[[[n x1] y1] x2] y2]. unfold inside. lia.
Qed.

Section LayoutInside.
Variable draw : Node -> Z -> Z -> Z -> Z -> Z -> Z -> list Placement.
Variables level max_draw_depth : Z.
Hypothesis draw_inside :
  forall n X Y W H, W < 2 ^ 53 -> H < 2 ^ 53 ->
    Forall (inside X Y W H) (draw n X Y W H level max_draw_depth).
Hypothesis draw_small :
  forall n X Y W H, W < 2 \/ H < 2 -> draw n X Y W H level max_draw_depth = [].

Lemma draw_treemap_inside nodes x y width height :
  StronglySorted size_ge nodes ->
  Forall (fun n => 0 < size n) nodes ->
  width < 2 ^ 53 -> height < 2 ^ 53 ->
  Forall (inside x y width height)
         (draw_treemap draw nodes x y width height level max_draw_depth).
Proof.
  intros Hsort Hpos Hw Hh. unfold draw_treemap.
  destruct nodes as [|n0 rest]; [constructor|].
  destruct ((width <? 4) || (height <? 4))%bool eqn:Es; [constructor|].
  apply orb_false_elim in Es. destruct Es as [Ew Eh].
  apply Z.ltb_ge in Ew. apply Z.ltb_ge in Eh.
  destruct (sum_sizes (n0 :: rest) =? 0) eqn:Et; [constructor|].
  apply Z.eqb_neq in Et.
  pose proof (sum_sizes_pos _ Hpos) as HT.
  destruct rest as [|n1 rest]; [apply draw_inside; assumption|].
  destruct (width >? height); apply Forall_flat_map; apply Forall_forall;
    intros [[n c] s] Hin; destruct (s >? 0) eqn:Esp; try constructor;
    (destruct (Z_lt_ge_dec s 2) as [Hlt | Hge];
     [rewrite draw_small by lia; constructor|]).
  - assert (Hb : x <= c /\ c + s <= x + width).
    { eapply (strip_split_inside width _ x (n0 :: n1 :: rest));
        try eassumption; try lia.
      left. exists 0. split; [lia|]. split; [lia|]. lia. }
    eapply Forall_impl; [|apply draw_inside; lia].
    intros p. apply inside_weaken; lia.
  - assert (Hb : y <= c /\ c + s <= y + height).
    { eapply (strip_split_inside height _ y (n0 :: n1 :: rest));
        try eassumption; try lia.
      left. exists 0. split; [lia|]. split; [lia|]. lia. }
    eapply Forall_impl; [|apply draw_inside; lia].
    intros p. apply inside_weaken; lia.
Qed.
End LayoutInside.

Lemma filter_positive_Forall l :
  Forall (fun n => 0 < size n) (filter (fun ch => size ch >? 0) l).
Proof.
  apply Forall_forall. intros n Hn. apply filter_In in Hn.
  destruct Hn as [_ Hn]. apply Z.gtb_lt in Hn. lia.
Qed.

Lemma draw_node_recursive_inside fuel :
  forall node x y width height level max_draw_depth,
    width < 2 ^ 53 -> height < 2 ^ 53 ->
    Forall (inside x y width height)
           (draw_node_recursive fuel node x y width height
                                level max_draw_depth).
Proof.
  induction fuel as [|fuel IH]; intros node x y w h level m Hw Hh;
    rewrite draw_node_recursive_eq;
    destruct ((w <? 2) || (h <? 2))%bool eqn:Es; try constructor;
    apply orb_false_elim in Es; destruct Es as [Ew Eh];
    apply Z.ltb_ge in Ew; apply Z.ltb_ge in Eh;
    try (unfold inside; lia);
    destruct (is_dir node && has_children node && (level <? m))%bool;
    try constructor; cbv zeta;
    destruct (sum_sizes _ =? 0); try constructor.
  eapply Forall_impl;
    [|apply (draw_treemap_inside (draw_node_recursive fuel) (level + 1) m)].
  - intros p. apply inside_weaken; lia.
  - intros n X Y W H HW HH. apply IH; assumption.
  - intros n X Y W H Hs. rewrite draw_node_recursive_eq.
    replace ((W <? 2) || (H <? 2))%bool with true; [reflexivity|].
    symmetry. apply orb_true_iff.
    destruct Hs; [left | right]; apply Z.ltb_lt; assumption.
  - apply sorted_desc_sorted.
  - eapply Permutation_Forall; [apply sorted_desc_perm|].
    apply filter_positive_Forall.
  - lia.
  - lia.
Qed.

(** X10. Every rectangle the layout emits lies inside the rectangle it was
    given, for any tree, level and depth limit, as long as that rectangle is
    less than [2^53] units wide and high: clamped strips that run over the
    far edge are 1 unit thick and are never drawn. *)
Theorem layout_inside_rectangle node x y width height level max_draw_depth :
  width < 2 ^ 53 -> height < 2 ^ 53 ->
  Forall (inside x y width height)
         (layout node x y width height level max_draw_depth).
Proof. intros. apply draw_node_recursive_inside; assumption. Qed.

Lemma layout_inside_rectangle_witness :
  100 < 2 ^ 53 /\ 50 < 2 ^ 53
  /\ List.length (layout sized_tree 0 0 100 50 0 2) = 5%nat
  /\ Forall (inside 0 0 100 50) (layout sized_tree 0 0 100 50 0 2).
Proof.
  split; [reflexivity|]. split; [reflexivity|].
  split; [vm_compute; reflexivity|].
  apply (layout_inside_rectangle sized_tree 0 0 100 50 0 2); reflexivity.
Defined.

(** *** Which nodes are placed *)

Section LayoutNodes.
Variable Q : Node -> Placement -> Prop.
Variable draw : Node -> Z -> Z -> Z -> Z -> Z -> Z -> list Placement.
Variables level max_draw_depth : Z.
Hypothesis draw_Q :
  forall n x y w h, Forall (Q n) (draw n x y w h level max_draw_depth).

(** What [draw_treemap] emits comes from drawing one of its nodes. *)
Lemma draw_treemap_from_nodes nodes x y w h :
  Forall (fun p => exists n, In n nodes /\ Q n p)
         (draw_treemap draw nodes x y w h level max_draw_depth).
Proof.
  unfold draw_treemap.
  destruct nodes as [|n0 rest]; [constructor|].
  destruct ((w <? 4) || (h <? 4))%bool; [constructor|].
  destruct (sum_sizes (n0 :: rest) =? 0); [constructor|].
  destruct rest as [|n1 rest].
  - eapply Forall_impl; [|apply draw_Q].
    intros p Hp. exists n0. split; [left; reflexivity | exact Hp].
  - destruct (w >? h); apply Forall_flat_map; apply Forall_forall;
      intros [[n c] s] Hin; destruct (s >? 0); try constructor;
      (eapply Forall_impl; [|apply draw_Q]);
      intros p Hp; exists n; (split; [|exact Hp]);
      apply (in_map (fun it => fst (fst it))) in Hin;
      rewrite strip_split_nodes in Hin; exact Hin.
Qed.
End LayoutNodes.

Lemma sorted_desc_In n l : In n (sorted_desc l) -> In n l.
Proof.
  apply Permutation_in. apply Permutation_sym. apply sorted_desc_perm.
Qed.

Lemma has_children_list n :
  has_children n = true -> children n = Some (children_list n).
Proof.
  unfold has_children, children_list.
  destruct (children n) as [[|c l]|]; try discriminate; reflexivity.
Qed.

Lemma draw_node_recursive_nodes fuel :
  forall node x y width height level max_draw_depth,
    Forall (fun p => exists k,
              In (placed_node p) (nodes_at_depth k node)
              /\ Z.of_nat k <= Z.max 0 (max_draw_depth - level)
              /\ (k <> O -> 0 < size (placed_node p)))
           (draw_node_recursive fuel node x y width height
                                level max_draw_depth).
Proof.
  induction fuel as [|fuel IH]; intros node x y w h level m;
    rewrite draw_node_recursive_eq;
    destruct ((w <? 2) || (h <? 2))%bool; try constructor;
    try (exists O; simpl; split; [left; reflexivity|];
         split; [lia | intros H; contradiction]);
    destruct (is_dir node && has_children node && (level <? m))%bool eqn:Ec;
    try constructor; cbv zeta;
    destruct (sum_sizes _ =? 0); try constructor.
  apply andb_prop in Ec. destruct Ec as [Ec El].
  apply andb_prop in Ec. destruct Ec as [_ Ech].
  apply Z.ltb_lt in El. apply has_children_list in Ech.
  eapply Forall_impl;
    [|apply (draw_treemap_from_nodes
               (fun n p => exists k,
                  In (placed_node p) (nodes_at_depth k n)
                  /\ Z.of_nat k <= Z.max 0 (m - (level + 1))
                  /\ (k <> O -> 0 < size (placed_node p)))
               (draw_node_recursive fuel) (level + 1) m);
      intros n x0 y0 w0 h0; apply IH].
  intros p [c [Hc [k [Hin [Hk Hsz]]]]].
  apply sorted_desc_In in Hc. apply filter_In in Hc.
  destruct Hc as [Hcl Hcs]. apply Z.gtb_lt in Hcs.
  exists (S k). split; [|split].
  - simpl. rewrite Ech. apply in_flat_map. exists c. auto.
  - lia.
  - intros _. destruct k as [|k].
    + simpl in Hin. destruct Hin as [<- | []]. lia.
    + apply Hsz. discriminate.
Qed.

(** X11. The layout places none but nodes of the tree it is given: each
    placement is of the root or of a descendant reached through children
    lists, at most [max_draw_depth - level] levels below the root, and
    every placed descendant has positive size. *)
Theorem layout_places_tree_nodes node x y width height level max_draw_depth :
  Forall (fun p => exists k,
            In (placed_node p) (nodes_at_depth k node)
            /\ Z.of_nat k <= Z.max 0 (max_draw_depth - level)
            /\ (k <> O -> 0 < size (placed_node p)))
         (layout node x y width height level max_draw_depth).
Proof. apply draw_node_recursive_nodes. Qed.

(** X12. The guards of the layout.  Nothing is emitted exactly when the
    rectangle is less than 2 wide or high; otherwise the first placement
    is the node itself on the whole rectangle, and it is the only one when
    the depth limit is reached, the node is a file, no child has positive
    size, or the rectangle is less than 8 wide or high (the inset is then
    under 4). *)
Theorem layout_guards node x y width height level max_draw_depth :
  (layout node x y width height level max_draw_depth = []
   <-> width < 2 \/ height < 2)
  /\ (2 <= width -> 2 <= height ->
      exists rest,
        layout node x y width height level max_draw_depth
        = (node, x, y, x + width, y + height) :: rest
        /\ (max_draw_depth <= level \/ is_dir node = false
            \/ (forall c, In c (children_list node) -> size c <= 0)
            \/ width < 8 \/ height < 8 ->
            rest = [])).
Proof.
  unfold layout. rewrite draw_node_recursive_eq.
  destruct ((width <? 2) || (height <? 2))%bool eqn:Es.
  - apply orb_true_iff in Es.
    assert (Hs : width < 2 \/ height < 2)
      by (destruct Es as [E | E]; apply Z.ltb_lt in E; auto).
    split; [split; auto|]. intros; lia.
  - apply orb_false_elim in Es. destruct Es as [Ew Eh].
    apply Z.ltb_ge in Ew. apply Z.ltb_ge in Eh.
    split; [split; [discriminate | lia]|].
    intros _ _. eexists. split; [reflexivity|].
    intros Hg.
    destruct (is_dir node) eqn:Ed; [|reflexivity].
    destruct (has_children node); [|reflexivity].
    destruct (level <? max_draw_depth) eqn:El; [|reflexivity].
    apply Z.ltb_lt in El. simpl. 
    destruct Hg as [Hg | [Hg | [Hg | Hg]]]; [lia | discriminate | |].
    + assert (Hf : filter (fun ch => size ch >? 0) (children_list node) = []).
      { induction (children_list node) as [|c l IH]; [reflexivity|].
        simpl. replace (size c >? 0) with false.
        - apply IH. intros c0 H0. apply Hg. right. exact H0.
        - symmetry. rewrite Z.gtb_ltb. apply Z.ltb_ge.
          apply Hg. left. reflexivity. }
      rewrite Hf. reflexivity.
    + destruct (sum_sizes _ =? 0); [reflexivity|].
      destruct (Z.to_nat (max_draw_depth - level)); [reflexivity|].
      unfold draw_treemap.
      destruct (sorted_desc _); [reflexivity|].
      replace ((width - 4 <? 4) || (height - 4 <? 4))%bool with true;
        [reflexivity|].
      symmetry. apply orb_true_iff.
      destruct Hg; [left | right]; apply Z.ltb_lt; lia.
Qed.

Lemma layout_guards_witness :
  2 <= 100 /\ 2 <= 50
  /\ exists rest,
       layout sized_tree 0 0 100 50 0 0
       = (sized_tree, 0, 0, 0 + 100, 0 + 50) :: rest
       /\ rest = [].
Proof.
  split; [lia|]. split; [lia|].
  destruct (proj2 (layout_guards sized_tree 0 0 100 50 0 0)
                  ltac:(lia) ltac:(lia)) as [rest [Hl Hr]].
  exists rest. split; [exact Hl|]. apply Hr. left. lia.
Defined.

(** ** Clicks *)

Lemma find_app {A} (f : A -> bool) l1 l2 :
  find f (l1 ++ l2)
  = match find f l1 with
    | Some a => Some a
    | None => find f l2
    end.
Proof.
  induction l1 as [|a l1 IH]; simpl; [reflexivity|].
  destruct (f a); [reflexivity | exact IH].
Qed.

(** Searching the reversed list finds the last match of the list. *)
Lemma find_rev_last {A} (f : A -> bool) l :
  match find f (rev l) with
  | Some p =>
      exists before after,
        l = before ++ p :: after /\ f p = true
        /\ Forall (fun q => f q = false) after
  | None => Forall (fun q => f q = false) l
  end.
Proof.
  induction l as [|a l IH] using rev_ind; simpl; [constructor|].
  rewrite rev_app_distr. simpl.
  destruct (f a) eqn:Ea.
  - exists l, []. repeat split; [exact Ea | constructor].
  - destruct (find f (rev l)) as [p|].
    + destruct IH as [before [after [-> [Hp Hafter]]]].
      exists before, (after ++ [a]). split; [|split].
      * rewrite <- app_assoc. reflexivity.
      * exact Hp.
      * apply Forall_app. split; [exact Hafter|].
        constructor; [exact Ea | constructor].
    + apply Forall_app. split; [exact IH|].
      constructor; [exact Ea | constructor].
Qed.

(** X13. [on_canvas_click] picks the node of the last rectangle of
    [self.rectangles] that contains the point, borders included: no
    rectangle after it in the list contains the point.  It picks nothing
    exactly when no rectangle contains the point. *)
Theorem on_canvas_click_last_hit rectangles x y :
  match on_canvas_click rectangles x y with
  | Some node =>
      exists before p after,
        rectangles = before ++ p :: after
        /\ placed_node p = node
        /\ contains_point x y p = true
        /\ Forall (fun q => contains_point x y q = false) after
  | None => Forall (fun q => contains_point x y q = false) rectangles
  end.
Proof.
  unfold on_canvas_click.
  pose proof (find_rev_last (contains_point x y) rectangles) as H.
  destruct (find (contains_point x y) (rev rectangles))
    as [[[[[n x1] y1] x2] y2]|]; [|exact H].
  destruct H as [before [after [Hl [Hp Ha]]]].
  exists before, (n, x1, y1, x2, y2), after. auto.
Qed.

(** X14. Once the canvas is laid out (more than 1 wide and high),
    [draw_visualization] draws, and a click anywhere on the canvas, borders
    included, picks a node: a node of the tree, at most [draw_depth] levels
    below the root. *)
Theorem click_on_drawn_canvas t canvas_width canvas_height draw_depth x y :
  1 < canvas_width -> 1 < canvas_height ->
  0 <= x <= canvas_width -> 0 <= y <= canvas_height ->
  exists rectangles node k,
    draw_visualization (Some t) canvas_width canvas_height draw_depth
    = Drawn rectangles
    /\ on_canvas_click rectangles x y = Some node
    /\ In node (nodes_at_depth k t)
    /\ Z.of_nat k <= Z.max 0 draw_depth.
Proof.
  intros Hw Hh Hx Hy. unfold draw_visualization.
  replace ((canvas_width <=? 1) || (canvas_height <=? 1))%bool with false
    by (symmetry; apply orb_false_intro; apply Z.leb_gt; lia).
  set (rects := layout t 0 0 canvas_width canvas_height 0 draw_depth).
  assert (Hroot : In (t, 0, 0, 0 + canvas_width, 0 + canvas_height) rects).
  { unfold rects, layout. rewrite draw_node_recursive_eq.
    replace ((canvas_width <? 2) || (canvas_height <? 2))%bool with false
      by (symmetry; apply orb_false_intro; apply Z.ltb_ge; lia).
    left. reflexivity. }
  pose proof (draw_node_recursive_nodes
                (Z.to_nat (draw_depth - 0)) t 0 0 canvas_width canvas_height
                0 draw_depth) as Hnodes.
  fold (layout t 0 0 canvas_width canvas_height 0 draw_depth) in Hnodes.
  fold rects in Hnodes. rewrite Forall_forall in Hnodes.
  unfold on_canvas_click.
  pose proof (find_rev_last (contains_point x y) rects) as H.
  destruct (find (contains_point x y) (rev rects))
    as [[[[[n x1] y1] x2] y2]|] eqn:Ef.
  - destruct H as [before [after [Hl [Hp Ha]]]].
    assert (Hin : In (n, x1, y1, x2, y2) rects).
    { rewrite Hl. apply in_or_app. right. left. reflexivity. }
    destruct (Hnodes _ Hin) as [k [Hk [Hd _]]].
    exists rects, n, k. simpl in Hk. rewrite Ef.
    replace (draw_depth - 0) with draw_depth in Hd by lia. auto.
  - exfalso. rewrite Forall_forall in H. specialize (H _ Hroot).
    unfold contains_point in H.
    rewrite !(proj2 (Z.leb_le _ _)) in H by lia.
    discriminate.
Qed.

Lemma click_on_drawn_canvas_witness :
  1 < 100 /\ 1 < 50 /\ 0 <= 30 <= 100 /\ 0 <= 20 <= 50
  /\ exists rectangles node k,
       draw_visualization (Some sized_tree) 100 50 2 = Drawn rectangles
       /\ on_canvas_click rectangles 30 20 = Some node
       /\ In node (nodes_at_depth k sized_tree)
       /\ Z.of_nat k <= Z.max 0 2.
Proof.
  split; [lia|]. split; [lia|]. split; [lia|]. split; [lia|].
  apply (click_on_drawn_canvas sized_tree 100 50 2 30 20); lia.
Defined.

(** ** Drive letters *)

Lemma land_1_testbit m : negb (Z.land m 1 =? 0) = Z.testbit m 0.
Proof.
  change 1 with (Z.ones 1). rewrite Z.land_ones by lia.
  rewrite Z.bit0_odd. change (2 ^ 1) with 2. rewrite Zmod_odd.
  destruct (Z.odd m); reflexivity.
Qed.

Lemma drives_loop_bits mask letters :
  forall k,
    drives_loop letters (Z.shiftr mask (Z.of_nat k))
    = map snd (filter (fun it => Z.testbit mask (Z.of_nat (fst it)))
                      (combine (seq k (List.length letters)) letters)).
Proof.
  induction letters as [|letter rest IH]; intros k; [reflexivity|].
  cbn [drives_loop List.length seq combine filter fst].
  rewrite land_1_testbit, Z.shiftr_spec by lia.
  rewrite Z.shiftr_shiftr by lia.
  replace (Z.of_nat k + 1) with (Z.of_nat (S k)) by lia.
  rewrite IH. replace (0 + Z.of_nat k) with (Z.of_nat k) by lia.
  destruct (Z.testbit mask (Z.of_nat k)); reflexivity.
Qed.

(** X15. [get_available_drives] lists, in alphabetical order and once
    each, the letters whose bit is set in the mask: the letter number [i]
    of the alphabet for bit [i], bits 26 and up being ignored. *)
Theorem get_available_drives_bits bitmask :
  get_available_drives bitmask
  = map snd (filter (fun it => Z.testbit bitmask (Z.of_nat (fst it)))
                    (combine (seq 0 26) ascii_uppercase))
  /\ forall letter,
       In letter (get_available_drives bitmask) <->
       exists i, nth_error ascii_uppercase i = Some letter
                 /\ Z.testbit bitmask (Z.of_nat i) = true.
Proof.
  assert (H : get_available_drives bitmask
              = map snd (filter (fun it => Z.testbit bitmask
                                             (Z.of_nat (fst it)))
                                (combine (seq 0 26) ascii_uppercase))).
  { unfold get_available_drives.
    rewrite <- (Z.shiftr_0_r bitmask) at 1.
    exact (drives_loop_bits bitmask ascii_uppercase 0). }
  split; [exact H|].
  intros letter. rewrite H. rewrite in_map_iff. split.
  - intros [[i l] [Hl Hin]]. simpl in Hl. subst l.
    apply filter_In in Hin. destruct Hin as [Hin Hb]. simpl in Hb.
    exists i. split; [|exact Hb].
    clear - Hin. revert Hin.
    change (seq 0 26) with (seq 0 (List.length ascii_uppercase)).
    generalize ascii_uppercase. intros l.
    assert (G : forall k j, In (j, letter) (combine (seq k (List.length l)) l)
                            -> exists i1, j = (k + i1)%nat
                                          /\ nth_error l i1 = Some letter).
    { induction l as [|a l IH]; intros k j Hj; [destruct Hj|].
      simpl in Hj. destruct Hj as [Hj | Hj].
      - inversion Hj; subst. exists O. split; [lia | reflexivity].
      - destruct (IH _ _ Hj) as [i1 [-> Hi]]. exists (S i1).
        split; [lia | exact Hi]. }
    intros Hin. destruct (G _ _ Hin) as [i0 [-> Hi0]]. exact Hi0.
  - intros [i [Hi Hb]]. exists (i, letter). split; [reflexivity|].
    apply filter_In. split; [|exact Hb].
    clear - Hi. revert Hi.
    change (seq 0 26) with (seq 0 (List.length ascii_uppercase)).
    generalize ascii_uppercase. intros l.
    assert (G : forall k i1, nth_error l i1 = Some letter ->
                             In ((k + i1)%nat, letter)
                                (combine (seq k (List.length l)) l)).
    { induction l as [|a l IH]; intros k i1 Hi1;
        [destruct i1; discriminate|].
      destruct i1 as [|i1]; simpl in Hi1.
      - inversion Hi1; subst. left. f_equal. lia.
      - right. replace (k + S i1)%nat with (S k + i1)%nat by lia.
        apply IH. exact Hi1. }
    intros Hi. exact (G O i Hi).
Qed.

(** ** Reparse resolver *)

Lemma land_pow2_testbit a n :
  0 <= n -> (Z.land a (2 ^ n) =? 0) = negb (Z.testbit a n).
Proof.
  intros Hn. destruct (Z.testbit a n) eqn:E; simpl.
  - apply Z.eqb_neq. intros H.
    assert (Hb : Z.testbit (Z.land a (2 ^ n)) n = true)
      by (rewrite Z.land_spec, E, Z.pow2_bits_true by lia; reflexivity).
    rewrite H, Z.bits_0 in Hb. discriminate.
  - apply Z.eqb_eq. apply Z.bits_inj'. intros m Hm.
    rewrite Z.land_spec, Z.bits_0.
    destruct (Z.eq_dec n m) as [<- | Hne].
    + rewrite E. reflexivity.
    + rewrite Z.pow2_bits_false by lia. apply andb_false_r.
Qed.

(** X16. [is_reparse_point] is bit 10 of the value [GetFileAttributesW]
    hands back, except at 0xFFFFFFFF where it is false.  At -1, which is
    how a signed 32-bit return value reports that the query failed, it is
    therefore true, and the path is not taken for same-volume. *)
Theorem is_reparse_point_is_bit_10 os path :
  is_reparse_point os path
  = (if GetFileAttributesW os path =? 4294967295 then false
     else Z.testbit (GetFileAttributesW os path) 10)
  /\ (GetFileAttributesW os path = -1 ->
      is_reparse_point os path = true
      /\ forall vol, is_reparse_point_target_same_volume os path vol
                     = false).
Proof.
  split.
  - unfold is_reparse_point, _get_attrs.
    change INVALID_FILE_ATTRIBUTES with 4294967295.
    change FILE_ATTRIBUTE_REPARSE_POINT with (2 ^ 10).
    destruct (GetFileAttributesW os path =? 4294967295); [reflexivity|].
    rewrite land_pow2_testbit by lia. apply negb_involutive.
  - intros E.
    assert (Hrp : is_reparse_point os path = true)
      by (unfold is_reparse_point, _get_attrs; rewrite E; reflexivity).
    split; [exact Hrp|]. intros vol.
    apply reparse_point_not_same_volume. exact Hrp.
Qed.

(** X17. No reparse point is entered.  For a path that is one, whatever
    its target and whatever the root volume, the resolver answers [False],
    [build_tree] returns [None], and the loop over a directory passes over
    an entry with that path without a node for it. *)
Theorem reparse_points_never_entered os path :
  is_reparse_point os path = true ->
  (forall vol, is_reparse_point_target_same_volume os path vol = false)
  /\ (forall parent depth max_depth vol,
        build_tree os path parent depth max_depth vol = None)
  /\ (forall build vol entry node,
        entry_path entry = path -> entry_is_dir entry = inr true ->
        scan_entry os build vol entry node = LoopDone node).
Proof.
  intros Hrp.
  assert (Hs : forall vol,
             is_reparse_point_target_same_volume os path vol = false)
    by (intros vol; apply reparse_point_not_same_volume; exact Hrp).
  split; [exact Hs|]. split.
  - intros parent depth max_depth vol. unfold build_tree.
    rewrite build_tree_fuel_eq. cbv zeta. rewrite Hrp, Hs. reflexivity.
  - intros build vol entry node Hp Hd. unfold scan_entry.
    rewrite Hd, Hp, Hrp, Hs. reflexivity.
Qed.

Lemma reparse_points_never_entered_witness :
  is_reparse_point os_unc_link "E:\link" = true
  /\ is_reparse_point_target_same_volume os_unc_link "E:\link" "E:" = false
  /\ build_tree os_unc_link "E:\link" None 0 3 "E:" = None.
Proof.
  destruct (reparse_points_never_entered os_unc_link "E:\link" eq_refl)
    as [Hs [Hb _]].
  split; [reflexivity|]. split; [apply Hs | apply Hb].
Defined.

(** ** Size labels *)

Lemma nearest_double_small n : 0 <= n < 2 ^ 53 -> nearest_double n = n.
Proof.
  intros H. unfold nearest_double. rewrite int_truediv_floor by lia.
  apply Z.div_1_r.
Qed.

Lemma nearest_double_big n : 2 ^ 53 <= n -> 2 ^ 52 <= nearest_double n.
Proof.
  intros H. unfold nearest_double, int_truediv.
  assert (H53 : 0 < 2 ^ 53) by reflexivity.
  replace (n =? 0) with false by (symmetry; apply Z.eqb_neq; lia).
  rewrite (Z.sgn_pos n), (Z.abs_eq n) by lia.
  change (Z.sgn 1) with 1. change (Z.abs 1) with 1.
  replace (1 * 1 * int_truediv_pos n 1) with (int_truediv_pos n 1) by lia.
  unfold int_truediv_pos.
  pose proof (quotient_exponent_lower n 1 ltac:(lia) ltac:(lia)) as He.
  cbv zeta in He. set (e := quotient_exponent n 1) in *.
  destruct (0 <=? 52 - e) eqn:Es.
  - apply Z.leb_le in Es.
    assert (Hp : 0 < 2 ^ (52 - e)) by (apply Z.pow_pos_nonneg; lia).
    apply Z.div_le_lower_bound; [lia|].
    destruct (round_half_even_cases (n * 2 ^ (52 - e)) 1) as [-> | [-> _]];
      rewrite Z.div_1_r; nia.
  - apply Z.leb_gt in Es.
    replace (Z.max 0 e) with e in He by lia.
    replace (Z.max 0 (- e)) with 0 in He by lia.
    rewrite Z.pow_0_r, Z.mul_1_r, Z.mul_1_l in He.
    replace (1 * 2 ^ (- (52 - e))) with (2 ^ (- (52 - e))) by lia.
    set (j := - (52 - e)) in *.
    assert (Hp : 0 < 2 ^ j) by (apply Z.pow_pos_nonneg; lia).
    assert (Hej : 2 ^ e = 2 ^ 52 * 2 ^ j)
      by (rewrite <- Z.pow_add_r by lia; f_equal; unfold j; lia).
    assert (Hq : 2 ^ 52 <= n / 2 ^ j)
      by (apply Z.div_le_lower_bound; lia).
    assert (H52 : 0 < 2 ^ 52) by reflexivity.
    destruct (round_half_even_cases n (2 ^ j)) as [-> | [-> _]]; nia.
Qed.

Lemma quotient_exponent_1 n : 0 < n -> quotient_exponent n 1 = Z.log2 n.
Proof.
  intros Hn. unfold quotient_exponent. change (Z.log2 1) with 0.
  rewrite Z.sub_0_r.
  pose proof (Z.log2_nonneg n) as He.
  pose proof (Z.log2_spec n Hn) as [Hl _].
  replace (Z.max 0 (- Z.log2 n)) with 0 by lia.
  replace (Z.max 0 (Z.log2 n)) with (Z.log2 n) by lia.
  rewrite Z.pow_0_r, Z.mul_1_r, Z.mul_1_l.
  replace (n <? 2 ^ Z.log2 n) with false
    by (symmetry; apply Z.ltb_ge; exact Hl).
  reflexivity.
Qed.

(** From [2^53] on the nearest double is a multiple of [2^j], where
    [2^(52+j) <= n < 2^(53+j)]. *)
Lemma nearest_double_rounds n :
  2 ^ 53 <= n ->
  let j := Z.log2 n - 52 in
  nearest_double n = round_half_even n (2 ^ j) * 2 ^ j.
Proof.
  intros H. cbv zeta. unfold nearest_double, int_truediv.
  assert (H53 : 0 < 2 ^ 53) by reflexivity.
  replace (n =? 0) with false by (symmetry; apply Z.eqb_neq; lia).
  rewrite (Z.sgn_pos n), (Z.abs_eq n) by lia.
  change (Z.sgn 1) with 1. change (Z.abs 1) with 1.
  replace (1 * 1 * int_truediv_pos n 1) with (int_truediv_pos n 1) by lia.
  unfold int_truediv_pos. rewrite quotient_exponent_1 by lia.
  assert (He : 53 <= Z.log2 n)
    by (change 53 with (Z.log2 (2 ^ 53)); apply Z.log2_le_mono; exact H).
  replace (0 <=? 52 - Z.log2 n) with false
    by (symmetry; apply Z.leb_gt; lia).
  replace (- (52 - Z.log2 n)) with (Z.log2 n - 52) by lia.
  rewrite Z.mul_1_l. reflexivity.
Qed.

(** [float] overflows from [2^1024 - 2^970] on: there the nearest value
    with 53 bits is [2^1024], the tie at the bound going to the even
    significand. *)
Lemma nearest_double_overflow n :
  0 < n -> (nearest_double n < 2 ^ 1024 <-> n < 2 ^ 1024 - 2 ^ 970).
Proof.
  intros Hn.
  destruct (Z_lt_ge_dec n (2 ^ 53)) as [Hs|Hb].
  { rewrite nearest_double_small by lia.
    assert (2 ^ 53 < 2 ^ 1024 - 2 ^ 970) by reflexivity.
    assert (2 ^ 53 < 2 ^ 1024) by reflexivity. lia. }
  rewrite (nearest_double_rounds n) by lia. cbv zeta.
  assert (He : 53 <= Z.log2 n)
    by (change 53 with (Z.log2 (2 ^ 53)); apply Z.log2_le_mono; lia).
  pose proof (Z.log2_spec n Hn) as [Hl Hu].
  set (e := Z.log2 n) in *. set (j := e - 52).
  assert (Hp : 0 < 2 ^ j) by (apply Z.pow_pos_nonneg; unfold j; lia).
  assert (Hej : 2 ^ e = 2 ^ 52 * 2 ^ j)
    by (rewrite <- Z.pow_add_r by (unfold j; lia); f_equal; unfold j; lia).
  assert (Hej1 : 2 ^ Z.succ e = 2 ^ 53 * 2 ^ j)
    by (rewrite <- Z.pow_add_r by (unfold j; lia); f_equal; unfold j; lia).
  pose proof (Z.div_mod n (2 ^ j) ltac:(lia)) as Hdm.
  pose proof (Z.mod_pos_bound n (2 ^ j) Hp) as Hr.
  assert (H52 : 0 < 2 ^ 52) by reflexivity.
  assert (H53 : 2 ^ 53 = 2 * 2 ^ 52) by reflexivity.
  assert (Hq : 2 ^ 52 <= n / 2 ^ j < 2 ^ 53).
  { split.
    - apply Z.div_le_lower_bound; lia.
    - apply Z.div_lt_upper_bound; lia. }
  destruct (Z_lt_ge_dec e 1023) as [Hlow|Hhigh].
  - (* the value is at most 2^(e+1) <= 2^1023 *)
    assert (Hpow : 2 ^ Z.succ e <= 2 ^ 1023)
      by (apply Z.pow_le_mono_r; lia).
    assert (H1 : 2 ^ 1023 < 2 ^ 1024 - 2 ^ 970) by reflexivity.
    assert (H2 : 2 ^ 1023 < 2 ^ 1024) by reflexivity.
    split; intros _; [lia|].
    destruct (round_half_even_cases n (2 ^ j)) as [-> | [-> _]]; nia.
  - destruct (Z.eq_dec e 1023) as [E|E].
    + (* the top binade: the significand must stay below 2^53 *)
      assert (Ej : j = 971) by (unfold j; lia).
      rewrite Ej in *. clear Hej Hej1 Hl Hu Hp.
      unfold round_half_even.
      set (q := n / 2 ^ 971) in *. set (r := n mod 2 ^ 971) in *.
      assert (Hc : 2 ^ 971 = 2 * 2 ^ 970) by reflexivity.
      assert (Hd : 2 ^ 1024 = 2 ^ 53 * 2 ^ 971) by reflexivity.
      assert (H970 : 0 < 2 ^ 970) by reflexivity.
      assert (Hodd : q = 2 ^ 53 - 1 -> Z.even q = false)
        by (intros ->; reflexivity).
      set (A := 2 ^ 970) in *. set (B := 2 ^ 971) in *.
      set (C := 2 ^ 1024) in *. set (D := 2 ^ 53) in *.
      set (F := 2 ^ 52) in *.
      destruct (2 * r <? B) eqn:E1;
        [apply Z.ltb_lt in E1 | apply Z.ltb_ge in E1;
         destruct (B <? 2 * r) eqn:E2;
           [apply Z.ltb_lt in E2 | apply Z.ltb_ge in E2;
            destruct (Z.eq_dec q (D - 1)) as [Eq|Eq];
              [rewrite (Hodd Eq) | destruct (Z.even q)]]];
        split; intros; nia.
    + (* beyond the range: the value is at least 2^e >= 2^1024 *)
      assert (Hpow : 2 ^ 1024 <= 2 ^ e)
        by (apply Z.pow_le_mono_r; lia).
      assert (H1 : 0 < 2 ^ 970) by reflexivity.
      split; intros Hlt; exfalso; [|lia].
      destruct (round_half_even_cases n (2 ^ j)) as [Ec | [Ec _]];
        rewrite Ec in Hlt; nia.
Qed.

Lemma float_of_int_pos n :
  0 < n ->
  float_of_int n
  = if n <? 2 ^ 1024 - 2 ^ 970 then Some (nearest_double n) else None.
Proof.
  intros Hn. unfold float_of_int.
  pose proof (nearest_double_overflow n Hn) as Ho.
  assert (Hnn : 0 <= nearest_double n).
  { destruct (Z_lt_ge_dec n (2 ^ 53)).
    - rewrite nearest_double_small; lia.
    - pose proof (nearest_double_big n ltac:(lia)).
      assert (0 < 2 ^ 52) by reflexivity. lia. }
  rewrite Z.abs_eq by exact Hnn.
  destruct (n <? 2 ^ 1024 - 2 ^ 970) eqn:E.
  - apply Z.ltb_lt in E. apply Ho in E.
    replace (nearest_double n <? 2 ^ 1024) with true
      by (symmetry; apply Z.ltb_lt; exact E).
    reflexivity.
  - apply Z.ltb_ge in E.
    replace (nearest_double n <? 2 ^ 1024) with false; [reflexivity|].
    symmetry. apply Z.ltb_ge.
    destruct (Z_lt_ge_dec (nearest_double n) (2 ^ 1024)) as [Hl|Hg]; [|lia].
    apply Ho in Hl. lia.
Qed.

Lemma round_half_even_error num den :
  0 < den -> 2 * Z.abs (round_half_even num den * den - num) <= den.
Proof.
  intros Hd. unfold round_half_even.
  pose proof (Z.div_mod num den ltac:(lia)) as Hdm.
  pose proof (Z.mod_pos_bound num den Hd) as Hr.
  destruct (2 * (num mod den) <? den) eqn:E1.
  - apply Z.ltb_lt in E1. nia.
  - apply Z.ltb_ge in E1.
    destruct (den <? 2 * (num mod den)) eqn:E2.
    + apply Z.ltb_lt in E2. nia.
    + apply Z.ltb_ge in E2. destruct (Z.even (num / den)); nia.
Qed.

(** The unit follows the thresholds 1024, 1024^2, 1024^3 and 1024^4. *)
Lemma size_unit_index_thresholds n :
  0 < n ->
  size_unit_index n
  = if n <? 1024 then 0%nat
    else if n <? 1024 ^ 2 then 1%nat
    else if n <? 1024 ^ 3 then 2%nat
    else if n <? 1024 ^ 4 then 3%nat
    else 4%nat.
Proof.
  intros Hn. unfold size_unit_index.
  assert (HF : (n < 2 ^ 53 /\ nearest_double n = n)
               \/ (2 ^ 53 <= n /\ 2 ^ 52 <= nearest_double n)).
  { destruct (Z_lt_ge_dec n (2 ^ 53)).
    - left. split; [assumption | apply nearest_double_small; lia].
    - right. split; [lia | apply nearest_double_big; lia]. }
  set (F := nearest_double n) in *.
  change (2 ^ 53) with 9007199254740992 in HF.
  change (2 ^ 52) with 4503599627370496 in HF.
  cbn [unit_loop].
  change (1024 * 1024 ^ Z.of_nat 0) with 1024.
  change (1024 * 1024 ^ Z.of_nat 1) with 1048576.
  change (1024 * 1024 ^ Z.of_nat 2) with 1073741824.
  change (1024 * 1024 ^ Z.of_nat 3) with 1099511627776.
  change (1024 ^ 2) with 1048576.
  change (1024 ^ 3) with 1073741824.
  change (1024 ^ 4) with 1099511627776.
  repeat match goal with
         | |- context [?a >=? ?b] =>
             let E := fresh "E" in
             destruct (a >=? b) eqn:E;
             [apply Z.geb_le in E | rewrite Z.geb_leb in E; apply Z.leb_gt in E]
         | |- context [?a <? ?b] =>
             let E := fresh "E" in
             destruct (a <? b) eqn:E;
             [apply Z.ltb_lt in E | apply Z.ltb_ge in E]
         end; try reflexivity; lia.
Qed.

Lemma string_app_assoc (a b c : string) :
  ((a ++ b) ++ c = a ++ (b ++ c))%string.
Proof.
  induction a as [|x a IH]; simpl; [reflexivity | rewrite IH; reflexivity].
Qed.

(** X18. For a positive size below [2^1024 - 2^970] [format_size] picks
    the unit by the thresholds 1024, 1024^2, 1024^3 and 1024^4: bytes below
    1024, then KB, MB, GB, and TB from 1024^4 on.  From [2^1024 - 2^970]
    on there is no label: [float(size_bytes)] raises [OverflowError]. *)
Theorem format_size_unit n :
  0 < n ->
  if n <? 2 ^ 1024 - 2 ^ 970
  then
    exists number,
      format_size n
      = Some (number ++ " "
              ++ (if (n <? 1024)%Z then "B"
                  else if (n <? 1024 ^ 2)%Z then "KB"
                  else if (n <? 1024 ^ 3)%Z then "MB"
                  else if (n <? 1024 ^ 4)%Z then "GB"
                  else "TB"))%string
  else format_size n = None.
Proof.
  intros Hn. unfold format_size.
  replace (n =? 0) with false by (symmetry; apply Z.eqb_neq; lia).
  rewrite (float_of_int_pos n Hn).
  destruct (n <? 2 ^ 1024 - 2 ^ 970); [|reflexivity].
  cbv zeta. rewrite (size_unit_index_thresholds n Hn).
  exists ((if (nearest_double n <? 0)%Z then "-" else "")
          ++ decimal (size_tenths n / 10)%Z ++ "."
          ++ decimal (size_tenths n mod 10)%Z)%string.
  rewrite !string_app_assoc.
  destruct (n <? 1024); [reflexivity|].
  destruct (n <? 1024 ^ 2); [reflexivity|].
  destruct (n <? 1024 ^ 3); [reflexivity|].
  destruct (n <? 1024 ^ 4); reflexivity.
Qed.

Lemma format_size_unit_witness :
  0 < 5463363675536
  /\ (exists number,
        format_size 5463363675536 = Some (number ++ " " ++ "TB")%string)
  /\ 0 < 2 ^ 1024
  /\ format_size (2 ^ 1024) = None.
Proof.
  split; [lia|]. split; [|split; [reflexivity|]].
  - pose proof (format_size_unit 5463363675536 ltac:(lia)) as H.
    replace (5463363675536 <? 2 ^ 1024 - 2 ^ 970) with true in H
      by (vm_compute; reflexivity).
    destruct H as [number H]. exists number. exact H.
  - pose proof (format_size_unit (2 ^ 1024) ltac:(reflexivity)) as H.
    replace (2 ^ 1024 <? 2 ^ 1024 - 2 ^ 970) with false in H
      by (vm_compute; reflexivity).
    exact H.
Defined.

(** X19. For a positive size below [2^53] the label is the size in the
    unit chosen, with one fractional digit, then a space and the unit.  The
    number shown is within 0.05 of the size counted in that unit; it is at
    least 1.0 from 1024 bytes on and at most 1024.0 below 1024^5 bytes. *)
Theorem format_size_value n :
  0 < n < 2 ^ 53 ->
  let t := size_tenths n in
  let D := 1024 ^ Z.of_nat (size_unit_index n) in
  format_size n
  = Some (decimal (t / 10)%Z ++ "." ++ decimal (t mod 10)%Z ++ " "
          ++ nth (size_unit_index n) units "")%string
  /\ 0 <= t mod 10 < 10
  /\ 2 * Z.abs (t * D - 10 * n) <= D
  /\ (1024 <= n -> 10 <= t)
  /\ (n < 1024 ^ 5 -> t <= 10240).
Proof.
  intros Hn. cbv zeta.
  pose proof (nearest_double_small n ltac:(lia)) as HF.
  split.
  { unfold format_size.
    replace (n =? 0) with false by (symmetry; apply Z.eqb_neq; lia).
    rewrite (float_of_int_pos n) by lia.
    assert (H53 : 2 ^ 53 < 2 ^ 1024 - 2 ^ 970) by reflexivity.
    replace (n <? 2 ^ 1024 - 2 ^ 970) with true
      by (symmetry; apply Z.ltb_lt; lia).
    cbv zeta. rewrite HF.
    replace (n <? 0) with false by (symmetry; apply Z.ltb_ge; lia).
    reflexivity. }
  split; [apply Z.mod_pos_bound; lia|].
  unfold size_tenths. rewrite HF, (Z.abs_eq n) by lia.
  rewrite (size_unit_index_thresholds n ltac:(lia)).
  change (1024 ^ 2) with 1048576.
  change (1024 ^ 3) with 1073741824.
  change (1024 ^ 4) with 1099511627776.
  change (1024 ^ 5) with 1125899906842624.
  repeat match goal with
         | |- context [?a <? ?b] =>
             let E := fresh "E" in
             destruct (a <? b) eqn:E;
             [apply Z.ltb_lt in E | apply Z.ltb_ge in E]
         end;
    match goal with
    | |- context [round_half_even ?num ?den] =>
        let d := eval vm_compute in den in
        change den with d;
        pose proof (round_half_even_error num d ltac:(lia)) as Herr;
        set (t := round_half_even num d) in *
    end;
    (split; [lia|]); split; intros; lia.
Qed.

Lemma format_size_value_witness :
  0 < 1048575 < 2 ^ 53
  /\ format_size 1048575 = Some "1024.0 KB"
  /\ size_tenths 1048575 = 10240
  /\ 2 * Z.abs (10240 * 1024 - 10 * 1048575) <= 1024.
Proof.
  split; [split; [lia | reflexivity]|].
  split; [vm_compute; reflexivity|].
  split; [vm_compute; reflexivity|].
  pose proof (format_size_value 1048575 ltac:(split; [lia | reflexivity]))
    as H.
  cbv zeta in H. destruct H as [_ [_ [H _]]].
  replace (size_tenths 1048575) with 10240 in H by (vm_compute; reflexivity).
  replace (1024 ^ Z.of_nat (size_unit_index 1048575)) with 1024 in H
    by (vm_compute; reflexivity).
  exact H.
Defined.
